(** * Fast-BVH: the stack-based BVH traversal of [FastBVH/Traverser.h]

    A shallow embedding of [Traverser::traverse] and the properties of the
    traversal: nearest-hit and occlusion correctness, pruning equivalence,
    the bound on the fixed 64-entry working set, termination, child
    ordering and the independence of the result from the box exit
    distances. *)

From Stdlib Require Import ZArith List Bool Lia.
Import ListNotations.
Local Open Scope Z_scope.

(** ** Scalars

    [Float] is a template parameter of the traverser.  The traversal never
    computes with scalars: it copies them and compares them with [<], [>]
    and (inside [Intersection]) with the infinity sentinel.  A scalar is
    therefore modelled by its place in the IEEE order: not-a-number, the two
    infinities, and the finite values.  The finite values are numbered by
    integers in increasing order; as no arithmetic is done on them any
    order-preserving numbering serves, and the one used here gives the
    literal [-9999999.f] the number [-9999999]. *)

Inductive Float : Type :=
| FNaN
| FNegInf
| FFin (z : Z)
| FPosInf.

(** [a < b] on scalars; every comparison with NaN is false. *)
Definition flt (a b : Float) : bool :=
  match a, b with
  | FNaN, _ => false
  | _, FNaN => false
  | FNegInf, FNegInf => false
  | FNegInf, _ => true
  | FFin _, FNegInf => false
  | FFin x, FFin y => x <? y
  | FFin _, FPosInf => true
  | FPosInf, _ => false
  end.

(** [a > b]. *)
Definition fgt (a b : Float) : bool := flt b a.

(** [a <= b]. *)
Definition fle (a b : Float) : bool :=
  match a, b with
  | FNaN, _ => false
  | _, FNaN => false
  | FNegInf, _ => true
  | FFin _, FNegInf => false
  | FFin x, FFin y => x <=? y
  | FFin _, FPosInf => true
  | FPosInf, FPosInf => true
  | FPosInf, _ => false
  end.

(** [a != b]: true as soon as one side is NaN. *)
Definition fne (a b : Float) : bool :=
  match a, b with
  | FNegInf, FNegInf => false
  | FFin x, FFin y => negb (x =? y)
  | FPosInf, FPosInf => false
  | _, _ => true
  end.

Definition is_nan (a : Float) : bool :=
  match a with FNaN => true | _ => false end.

(** [std::numeric_limits<Float>::infinity()]. *)
Definition infinity : Float := FPosInf.

(** The literal [-9999999.f] stored with the root entry. *)
Definition root_mint : Float := FFin (-9999999).

(** ** Machine integers

    Node indices live in [uint32_t] fields ([Traversal::i]) and pass through
    [int] and [int32_t] locals ([ni], [closer], [other]). *)

Definition to_uint32 (z : Z) : Z := z mod 2 ^ 32.

Definition to_int32 (z : Z) : Z := (z + 2 ^ 31) mod 2 ^ 32 - 2 ^ 31.

(** ** Data *)

(** Modelled from the spec: the [Intersection] record of the absent
    [Intersection.h]: a hit distance [t] whose "no hit yet" sentinel is
    [+infinity], and the payload the intersector attaches.  A
    default-constructed value carries the sentinel and no payload. *)
Record Intersection (Payload : Type) : Type := mkIntersection {
  t : Float;
  payload : option Payload
}.
Arguments mkIntersection {Payload} _ _.
Arguments t {Payload} _.
Arguments payload {Payload} _.

Definition no_hit {Payload : Type} : Intersection Payload :=
  mkIntersection infinity None.

(** Modelled from the spec: the validity test of an [Intersection]
    ([operator bool], absent): a value is invalid exactly when its [t] is
    the sentinel. *)
Definition valid {Payload : Type} (x : Intersection Payload) : bool :=
  fne (t x) infinity.

(** Modelled from the spec: the merge rule [closest(a, b)] (absent): the
    operand with the smaller [t], decided by [<]; an invalid operand holds
    the sentinel and so loses to any valid one. *)
Definition closest {Payload : Type} (a b : Intersection Payload)
  : Intersection Payload :=
  if flt (t a) (t b) then a else b.

(** [x] is the least hit distance among [tb] and the valid hits of [hs]:
    it is one of them and no one of them is smaller. *)
Definition is_min_t {Payload : Type} (x tb : Float)
           (hs : list (Intersection Payload)) : Prop :=
  (x = tb \/ exists h, In h hs /\ valid h = true /\ t h = x)
  /\ fle x tb = true
  /\ forall h, In h hs -> valid h = true -> fle x (t h) = true.

(** Modelled from the spec: the flattened node of the absent [BVH.h]: a
    bounding box, the primitive range of a leaf, and the offset to the right
    child, zero at a leaf.  The three integers are unsigned 32-bit fields,
    as the loop counter compared with [nPrims] is. *)
Record Node (BBox : Type) : Type := mkNode {
  bbox : BBox;
  start : Z;
  nPrims : Z;
  rightOffset : Z
}.
Arguments mkNode {BBox} _ _ _ _.
Arguments bbox {BBox} _.
Arguments start {BBox} _.
Arguments nPrims {BBox} _.
Arguments rightOffset {BBox} _.

(** [TraverserImpl::Traversal]: a working-set entry. *)
Module TraverserImpl.
Record Traversal : Type := mkTraversal {
  i : Z;        (* uint32_t: the index of the node to be traversed *)
  mint : Float  (* minimum hit time for this node *)
}.
End TraverserImpl.
Import TraverserImpl (Traversal, mkTraversal).

(** The capacity of [Traversal todo[64]]. *)
Definition todo_capacity : Z := 64.

(** What a run of the loop can end in besides a returned value: a read
    outside the node or primitive array, or a write past [todo[63]].  The
    source does not check for any of them. *)
Inductive Fault : Type :=
| NodeOutOfRange
| PrimOutOfRange
| StackOverflow.

Section Traverser.

Context {Primitive Ray BBox Payload : Type}.

(** The caller's intersector, [intersector(obj, ray)]. *)
Variable intersector : Primitive -> Ray -> Intersection Payload.

(** Modelled from the spec: [BBox::intersect] (absent): the entry and
    exit distance of the ray on a hit, nothing on a miss. *)
Variable bbox_intersect : BBox -> Ray -> option (Float * Float).

(** [bvh.getNodes()] and [bvh.getPrimitives()]. *)
Variable flatTree : list (Node BBox).
Variable build_prims : list Primitive.

(** The locals that live across iterations: the working set, top first
    (so that [stackptr] is its length minus one; slots above [stackptr]
    are never read before they are written), and the running best. *)
Record State : Type := mkState {
  todo : list Traversal;
  intersection : Intersection Payload
}.

Definition stackptr (st : State) : Z := Z.of_nat (length (todo st)) - 1.

Inductive Step : Type :=
| Continue (st : State)
| Return (r : Intersection Payload)
| Undefined (f : Fault).

Inductive Outcome : Type :=
| Returned (r : Intersection Payload)
| Faulted (f : Fault)
| OutOfFuel.

(** [flatTree[k]] and [build_prims[k]]. *)
Definition node_at (k : Z) : option (Node BBox) :=
  if k <? 0 then None else nth_error flatTree (Z.to_nat k).

Definition prim_at (k : Z) : option Primitive :=
  if k <? 0 then None else nth_error build_prims (Z.to_nat k).

(** [todo[++stackptr] = e]. *)
Definition push (e : Traversal) (stack : list Traversal)
  : option (list Traversal) :=
  if Z.of_nat (length stack) <? todo_capacity then Some (e :: stack)
  else None.

Section Ray.

Variable ray : Ray.
Variable occlusion : bool.

(** The [for] loop over the primitives of a leaf: [count] iterations
    remain, [o] is the loop counter. *)
Inductive LeafResult : Type :=
| LeafDone (best : Intersection Payload)
| LeafHit (current : Intersection Payload)
| LeafFault.

Fixpoint scan_leaf (node : Node BBox) (count : nat) (o : Z)
         (best : Intersection Payload) : LeafResult :=
  match count with
  | O => LeafDone best
  | S count' =>
      match prim_at (to_uint32 (start node + o)) with
      | None => LeafFault
      | Some obj =>
          let current := intersector obj ray in
          if valid current then
            if occlusion then LeafHit current
            else scan_leaf node count' (o + 1) (closest best current)
          else scan_leaf node count' (o + 1) best
      end
  end.

(** The two pushes of the both-children-hit case. *)
Definition push2 (other closer : Traversal) (rest : list Traversal)
           (best : Intersection Payload) : Step :=
  match push other rest with
  | None => Undefined StackOverflow
  | Some s1 =>
      match push closer s1 with
      | None => Undefined StackOverflow
      | Some s2 => Continue (mkState s2 best)
      end
  end.

Definition push1 (e : Traversal) (rest : list Traversal)
           (best : Intersection Payload) : Step :=
  match push e rest with
  | None => Undefined StackOverflow
  | Some s1 => Continue (mkState s1 best)
  end.

(** The body of the loop after the prune test, for node [ni].  The four
    slots of [bbhits] are [bb0] to [bb3]: a box test that reports a hit
    writes its two slots before they are read in the same iteration, so the
    array is local to the iteration here. *)
Definition visit_node (ni : Z) (node : Node BBox)
           (rest : list Traversal) (best : Intersection Payload) : Step :=
  if rightOffset node =? 0 then
    match scan_leaf node (Z.to_nat (nPrims node)) 0 best with
    | LeafDone best' => Continue (mkState rest best')
    | LeafHit current => Return current
    | LeafFault => Undefined PrimOutOfRange
    end
  else
    let c0 := ni + 1 in
    let c1 := to_uint32 (ni + rightOffset node) in
    match node_at c0, node_at c1 with
    | Some n0, Some n1 =>
        match bbox_intersect (bbox n0) ray,
              bbox_intersect (bbox n1) ray with
        | Some (bb0, bb1), Some (bb2, bb3) =>
            let closer := to_int32 c0 in
            let other := to_int32 c1 in
            let '(bb0', bb1', bb2', bb3', closer', other') :=
              if flt bb2 bb0
              then (bb2, bb3, bb0, bb1, other, closer)
              else (bb0, bb1, bb2, bb3, closer, other) in
            push2 (mkTraversal (to_uint32 other') bb2')
                  (mkTraversal (to_uint32 closer') bb0') rest best
        | Some (bb0, _), None =>
            push1 (mkTraversal (to_uint32 c0) bb0) rest best
        | None, Some (bb2, _) =>
            push1 (mkTraversal (to_uint32 (to_int32 c1)) bb2) rest best
        | None, None => Continue (mkState rest best)
        end
    | _, _ => Undefined NodeOutOfRange
    end.

(** One iteration of [while (stackptr >= 0)].  [pruning] is [true] in
    the source; [false] gives the variant without the test
    [near > intersection.t], which the pruning-equivalence property
    compares with the source. *)
Definition step_with (pruning : bool) (st : State) : Step :=
  match todo st with
  | [] => Return (intersection st)
  | top :: rest =>
      let ni := to_int32 (TraverserImpl.i top) in
      let near := TraverserImpl.mint top in
      match node_at ni with
      | None => Undefined NodeOutOfRange
      | Some node =>
          if pruning && fgt near (t (intersection st))
          then Continue (mkState rest (intersection st))
          else visit_node ni node rest (intersection st)
      end
  end.

Definition step : State -> Step := step_with true.
Definition step_unpruned : State -> Step := step_with false.

Fixpoint run (stp : State -> Step) (fuel : nat) (st : State) : Outcome :=
  match fuel with
  | O => OutOfFuel
  | S fuel' =>
      match stp st with
      | Continue st' => run stp fuel' st'
      | Return r => Returned r
      | Undefined f => Faulted f
      end
  end.

(** The state at loop entry: the root pushed with the sentinel, the
    default-constructed [intersection]. *)
Definition initial : State :=
  mkState [mkTraversal 0 root_mint] no_hit.

(** The states the loop passes through from loop entry. *)
Inductive reachable (stp : State -> Step) : State -> Prop :=
| reach_initial : reachable stp initial
| reach_step st st' :
    reachable stp st -> stp st = Continue st' -> reachable stp st'.

Definition traverse_fuel (fuel : nat) : Outcome := run step fuel initial.

Definition traverse_unpruned_fuel (fuel : nat) : Outcome :=
  run step_unpruned fuel initial.

End Ray.

End Traverser.

Arguments State : clear implicits.
Arguments Step : clear implicits.
Arguments Outcome : clear implicits.
Arguments LeafResult : clear implicits.

(** ** The hierarchy behind a flattened array

    The builder is not part of the traverser; what it promises is that the
    node array is a binary tree laid out in depth-first pre-order.  [Tree]
    is that tree and [flatten] its layout: the left child in the next slot,
    the right child after the whole left subtree. *)

Inductive Tree (BBox : Type) : Type :=
| TLeaf (b : BBox) (s n : Z)
| TInner (b : BBox) (s n : Z) (l r : Tree BBox).
Arguments TLeaf {BBox} _ _ _.
Arguments TInner {BBox} _ _ _ _ _.

Section Hierarchy.

Context {Primitive Ray BBox Payload : Type}.

Fixpoint size (tr : Tree BBox) : nat :=
  match tr with
  | TLeaf _ _ _ => 1
  | TInner _ _ _ l r => S (size l + size r)
  end.

(** The number of nodes on the longest path from the root to a leaf: a
    single leaf has depth 1. *)
Fixpoint depth (tr : Tree BBox) : nat :=
  match tr with
  | TLeaf _ _ _ => 1
  | TInner _ _ _ l r => S (Nat.max (depth l) (depth r))
  end.

Definition root_bbox (tr : Tree BBox) : BBox :=
  match tr with
  | TLeaf b _ _ => b
  | TInner b _ _ _ _ => b
  end.

Definition root_node (tr : Tree BBox) : Node BBox :=
  match tr with
  | TLeaf b s n => mkNode b s n 0
  | TInner b s n l _ => mkNode b s n (1 + Z.of_nat (size l))
  end.

Fixpoint flatten (tr : Tree BBox) : list (Node BBox) :=
  match tr with
  | TLeaf _ _ _ => [root_node tr]
  | TInner _ _ _ l r => root_node tr :: flatten l ++ flatten r
  end.

(** [located tr k sub]: the subtree [sub] of [tr] has its root in slot [k]
    of [flatten tr]. *)
Inductive located : Tree BBox -> nat -> Tree BBox -> Prop :=
| loc_here tr : located tr 0 tr
| loc_left b s n l r k sub :
    located l k sub -> located (TInner b s n l r) (S k) sub
| loc_right b s n l r k sub :
    located r k sub -> located (TInner b s n l r) (S (size l + k)) sub.

(** Every entry of the working set names a subtree of [tr], and the slot
    it occupies in [todo] plus the depth of that subtree stays within the
    depth of [tr]. *)
Fixpoint stack_ok (tr : Tree BBox) (stack : list Traversal) : Prop :=
  match stack with
  | [] => True
  | e :: rest =>
      (exists k sub,
          TraverserImpl.i e = Z.of_nat k
          /\ located tr k sub
          /\ (length rest + depth sub <= depth tr)%nat)
      /\ stack_ok tr rest
  end.

Variable intersector : Primitive -> Ray -> Intersection Payload.
Variable bbox_intersect : BBox -> Ray -> option (Float * Float).
Variable build_prims : list Primitive.

(** The primitives [start, start + count) of the array. *)
Definition slice (s n : Z) : list Primitive :=
  firstn (Z.to_nat n) (skipn (Z.to_nat s) build_prims).

(** The primitives owned by the leaves of a subtree, in visiting order. *)
Fixpoint tree_prims (tr : Tree BBox) : list Primitive :=
  match tr with
  | TLeaf _ s n => slice s n
  | TInner _ _ _ l r => tree_prims l ++ tree_prims r
  end.

(** Every leaf range lies within the primitive array. *)
Fixpoint ranges_ok (tr : Tree BBox) : bool :=
  match tr with
  | TLeaf _ s n =>
      (0 <=? s) && (0 <=? n) && (s + n <=? Z.of_nat (length build_prims))
  | TInner _ _ _ l r => ranges_ok l && ranges_ok r
  end.

(** Primitive [k] belongs to some leaf. *)
Fixpoint covered (k : Z) (tr : Tree BBox) : bool :=
  match tr with
  | TLeaf _ s n => (s <=? k) && (k <? s + n)
  | TInner _ _ _ l r => covered k l || covered k r
  end.

Definition covers (tr : Tree BBox) : bool :=
  forallb (fun k => covered (Z.of_nat k) tr) (seq 0 (length build_prims)).

(** The structural contract of the builder: the array and its indices fit
    the 32-bit index types, the hierarchy is no deeper than the working
    set, and the leaves own in-range primitives. *)
Definition well_formed (tr : Tree BBox) : bool :=
  (Z.of_nat (size tr) <? 2 ^ 31)
  && (Z.of_nat (depth tr) <=? todo_capacity)
  && (Z.of_nat (length build_prims) <=? 2 ^ 32)
  && ranges_ok tr.

Section Ray.

Variable ray : Ray.

Definition hits (tr : Tree BBox) : list (Intersection Payload) :=
  map (fun obj => intersector obj ray) (tree_prims tr).

(** A box encloses a set of primitives, seen through the two tests the
    traverser can make: a ray that hits one of the primitives hits the
    box, and enters it no later than it reaches the primitive. *)
Definition box_ok (b : BBox) (hs : list (Intersection Payload)) : bool :=
  match bbox_intersect b ray with
  | Some (near, _) =>
      forallb (fun h => implb (valid h) (fle near (t h))) hs
  | None => forallb (fun h => negb (valid h)) hs
  end.

(** Every node's box encloses the primitives of its subtree. *)
Fixpoint encloses (tr : Tree BBox) : bool :=
  match tr with
  | TLeaf b _ _ => box_ok b (hits tr)
  | TInner b _ _ l r => box_ok b (hits tr) && encloses l && encloses r
  end.

(** The brute-force scan: the intersector applied to every primitive of
    the array, the results folded with [closest]. *)
Definition brute_force : Intersection Payload :=
  fold_left (fun acc obj => closest acc (intersector obj ray))
            build_prims no_hit.

(** *** The traversal as a recursion on the hierarchy

    [visit] is what the loop computes while the entry of a subtree is
    on top of the working set and until that entry and everything
    pushed on behalf of it are gone: either the running best to go on
    with, or the hit that occlusion mode returns at once. *)
Inductive Visit : Type :=
| Go (best : Intersection Payload)
| Stop (hit : Intersection Payload).

Definition and_then (v : Visit) (k : Intersection Payload -> Visit)
  : Visit :=
  match v with
  | Go best => k best
  | Stop hit => Stop hit
  end.

(** The entries that visiting an internal node in slot [k] leaves on the
    working set for its children [l] and [r], top first. *)
Definition pushed (k : nat) (l r : Tree BBox) : list Traversal :=
  let left := Z.of_nat (S k) in
  let right := Z.of_nat (S (k + size l)) in
  match bbox_intersect (root_bbox l) ray,
        bbox_intersect (root_bbox r) ray with
  | Some (n0, _), Some (n1, _) =>
      if flt n1 n0
      then [mkTraversal right n1; mkTraversal left n0]
      else [mkTraversal left n0; mkTraversal right n1]
  | Some (n0, _), None => [mkTraversal left n0]
  | None, Some (n1, _) => [mkTraversal right n1]
  | None, None => []
  end.

Variable pruning occlusion : bool.

Fixpoint scan_list (objs : list Primitive) (best : Intersection Payload)
  : Visit :=
  match objs with
  | [] => Go best
  | obj :: objs' =>
      let current := intersector obj ray in
      if valid current then
        if occlusion then Stop current
        else scan_list objs' (closest best current)
      else scan_list objs' best
  end.

Fixpoint visit (tr : Tree BBox) (near : Float)
         (best : Intersection Payload) : Visit :=
  if pruning && fgt near (t best) then Go best
  else
    match tr with
    | TLeaf _ s n => scan_list (slice s n) best
    | TInner _ _ _ l r =>
        match bbox_intersect (root_bbox l) ray,
              bbox_intersect (root_bbox r) ray with
        | Some (n0, _), Some (n1, _) =>
            if flt n1 n0
            then and_then (visit r n1 best) (fun b => visit l n0 b)
            else and_then (visit l n0 best) (fun b => visit r n1 b)
        | Some (n0, _), None => visit l n0 best
        | None, Some (n1, _) => visit r n1 best
        | None, None => Go best
        end
    end.

End Ray.

End Hierarchy.

Arguments Visit : clear implicits.

(** ** A concrete scene

    Primitives are points on a line, a box is an interval, and a ray starts
    at an origin and runs in the positive direction: the smallest setting
    in which boxes, entry distances and hits are all there. *)

Module Scene.

Definition hit_point (p o : Z) : Intersection Z :=
  if o <=? p then mkIntersection (FFin (p - o)) (Some p) else no_hit.

Definition hit_interval (b : Z * Z) (o : Z) : option (Float * Float) :=
  if snd b <? o then None else Some (FFin (fst b - o), FFin (snd b - o)).

(** The same box test, reporting no usable exit distance. *)
Definition hit_interval_entry_only (b : Z * Z) (o : Z)
  : option (Float * Float) :=
  if snd b <? o then None else Some (FFin (fst b - o), FNaN).

(** The same box test again, except that it reports a miss for the box
    [2, 12]. *)
Definition hit_interval_but_2_12 (b : Z * Z) (o : Z)
  : option (Float * Float) :=
  if (fst b =? 2) && (snd b =? 12) then None else hit_interval b o.

Definition points : list Z := [2; 5; 9; 12].

Definition hierarchy : Tree (Z * Z) :=
  TInner (2, 12) 0 4
         (TLeaf (2, 5) 0 2)
         (TInner (9, 12) 2 2 (TLeaf (9, 9) 2 1) (TLeaf (12, 12) 3 1)).

(** One leaf that owns the point at 9 before the point at 5. *)
Definition unsorted_points : list Z := [9; 5].
Definition unsorted_leaf : Tree (Z * Z) := TLeaf (5, 9) 0 2.

(** A left-deep hierarchy of empty leaves with [n + 1] levels. *)
Fixpoint chain (n : nat) : Tree (Z * Z) :=
  match n with
  | O => TLeaf (0, 0) 0 0
  | S n' => TInner (0, 0) 0 0 (chain n') (TLeaf (0, 0) 0 0)
  end.

End Scene.

(** ** Calls on a shared BVH

    The node array and the primitive array are memory that a call of
    [traverse] shares with every other call on the same BVH.  Here the loop
    is written once more against that memory: a computation takes the
    memory and hands it on together with its result, and the only accesses
    are the loads [flatTree[k]] and [build_prims[k]].  The locals of a call
    stay in its [State]. *)

Section Calls.

Context {Primitive Ray BBox Payload : Type}.
Variable intersector : Primitive -> Ray -> Intersection Payload.
Variable bbox_intersect : BBox -> Ray -> option (Float * Float).

(** What [bvh.getNodes()] and [bvh.getPrimitives()] point to. *)
Record BVH : Type := mkBVH {
  getNodes : list (Node BBox);
  getPrimitives : list Primitive
}.

(** A computation ends with a value, leaves [traverse] through a [return],
    or is undefined. *)
Inductive Result (A : Type) : Type :=
| Value (a : A)
| Leave (r : Intersection Payload)
| Fail (f : Fault).
Arguments Value {A} _.
Arguments Leave {A} _.
Arguments Fail {A} _.

Definition Mem (A : Type) : Type := BVH -> BVH * Result A.

Definition unit_mem {A : Type} (a : A) : Mem A :=
  fun bvh => (bvh, Value a).

Definition bind_mem {A B : Type} (c : Mem A) (k : A -> Mem B) : Mem B :=
  fun bvh =>
    match c bvh with
    | (bvh', Value a) => k a bvh'
    | (bvh', Leave r) => (bvh', Leave r)
    | (bvh', Fail f) => (bvh', Fail f)
    end.

Definition leave {A : Type} (r : Intersection Payload) : Mem A :=
  fun bvh => (bvh, Leave r).

Definition fail {A : Type} (f : Fault) : Mem A :=
  fun bvh => (bvh, Fail f).

(** [flatTree[k]] and [build_prims[k]] as loads. *)
Definition load_node (k : Z) : Mem (Node BBox) :=
  fun bvh =>
    (bvh, match node_at (getNodes bvh) k with
          | Some node => Value node
          | None => Fail NodeOutOfRange
          end).

Definition load_prim (k : Z) : Mem Primitive :=
  fun bvh =>
    (bvh, match prim_at (getPrimitives bvh) k with
          | Some obj => Value obj
          | None => Fail PrimOutOfRange
          end).

Definition push_mem (e : Traversal) (stack : list Traversal)
  : Mem (list Traversal) :=
  match push e stack with
  | Some stack' => unit_mem stack'
  | None => fail StackOverflow
  end.

Local Notation "x <- c ;; k" := (bind_mem c (fun x => k))
  (at level 61, c at next level, right associativity).

Fixpoint scan_leaf_mem (ray : Ray) (occlusion : bool) (node : Node BBox)
         (count : nat) (o : Z) (best : Intersection Payload)
  : Mem (Intersection Payload) :=
  match count with
  | O => unit_mem best
  | S count' =>
      obj <- load_prim (to_uint32 (start node + o)) ;;
      let current := intersector obj ray in
      if valid current then
        if occlusion then leave current
        else scan_leaf_mem ray occlusion node count' (o + 1)
                           (closest best current)
      else scan_leaf_mem ray occlusion node count' (o + 1) best
  end.

Definition visit_node_mem (ray : Ray) (occlusion : bool) (ni : Z)
           (node : Node BBox) (rest : list Traversal)
           (best : Intersection Payload) : Mem (State Payload) :=
  if rightOffset node =? 0 then
    best' <- scan_leaf_mem ray occlusion node (Z.to_nat (nPrims node)) 0
                           best ;;
    unit_mem (mkState rest best')
  else
    let c0 := ni + 1 in
    let c1 := to_uint32 (ni + rightOffset node) in
    n0 <- load_node c0 ;;
    n1 <- load_node c1 ;;
    match bbox_intersect (bbox n0) ray, bbox_intersect (bbox n1) ray with
    | Some (bb0, bb1), Some (bb2, bb3) =>
        let closer := to_int32 c0 in
        let other := to_int32 c1 in
        let '(bb0', bb1', bb2', bb3', closer', other') :=
          if flt bb2 bb0
          then (bb2, bb3, bb0, bb1, other, closer)
          else (bb0, bb1, bb2, bb3, closer, other) in
        s1 <- push_mem (mkTraversal (to_uint32 other') bb2') rest ;;
        s2 <- push_mem (mkTraversal (to_uint32 closer') bb0') s1 ;;
        unit_mem (mkState s2 best)
    | Some (bb0, _), None =>
        s1 <- push_mem (mkTraversal (to_uint32 c0) bb0) rest ;;
        unit_mem (mkState s1 best)
    | None, Some (bb2, _) =>
        s1 <- push_mem (mkTraversal (to_uint32 (to_int32 c1)) bb2) rest ;;
        unit_mem (mkState s1 best)
    | None, None => unit_mem (mkState rest best)
    end.

(** One iteration of the loop against the memory. *)
Definition step_mem (ray : Ray) (occlusion : bool) (st : State Payload)
  : Mem (State Payload) :=
  match todo st with
  | [] => leave (intersection st)
  | top :: rest =>
      let ni := to_int32 (TraverserImpl.i top) in
      let near := TraverserImpl.mint top in
      node <- load_node ni ;;
      if fgt near (t (intersection st))
      then unit_mem (mkState rest (intersection st))
      else visit_node_mem ray occlusion ni node rest (intersection st)
  end.

(** A call of [traverse]: in the loop with its arguments and locals, or
    over, with the intersection it returned or undefined. *)
Inductive Call : Type :=
| Running (ray : Ray) (occlusion : bool) (st : State Payload)
| Returning (r : Intersection Payload)
| Crashed (f : Fault).

(** The call at loop entry. *)
Definition enter (ray : Ray) (occlusion : bool) : Call :=
  Running ray occlusion initial.

(** One iteration of a call; a call that is over stays as it is. *)
Definition iterate (c : Call) (bvh : BVH) : BVH * Call :=
  match c with
  | Running ray occlusion st =>
      match step_mem ray occlusion st bvh with
      | (bvh', Value st') => (bvh', Running ray occlusion st')
      | (bvh', Leave r) => (bvh', Returning r)
      | (bvh', Fail f) => (bvh', Crashed f)
      end
  | _ => (bvh, c)
  end.

(** [n] iterations of one call. *)
Fixpoint solo (n : nat) (c : Call) (bvh : BVH) : BVH * Call :=
  match n with
  | O => (bvh, c)
  | S n' => let '(bvh', c') := iterate c bvh in solo n' c' bvh'
  end.

(** Two calls on the same memory, advanced an iteration at a time in the
    order of [schedule]: [true] advances the first call, [false] the
    second. *)
Fixpoint interleave (schedule : list bool) (c1 c2 : Call) (bvh : BVH)
  : BVH * Call * Call :=
  match schedule with
  | [] => (bvh, c1, c2)
  | true :: schedule' =>
      let '(bvh', c1') := iterate c1 bvh in interleave schedule' c1' c2 bvh'
  | false :: schedule' =>
      let '(bvh', c2') := iterate c2 bvh in interleave schedule' c1 c2' bvh'
  end.

(** How many iterations a schedule gives to the first and to the second
    call. *)
Definition turns (who : bool) (schedule : list bool) : nat :=
  length (filter (Bool.eqb who) schedule).

End Calls.

Arguments BVH : clear implicits.
Arguments Result : clear implicits.
Arguments Call : clear implicits.
Arguments Value {Payload A} _.
Arguments Leave {Payload A} _.
Arguments Fail {Payload A} _.

(** ** The working-set entry and the provenance of a result *)

(** The constructor [Traversal(int i_, Float mint_)]: the [int] argument
    initialises the [uint32_t] member [i]. *)
Definition Traversal_init (i_ : Z) (mint_ : Float) : Traversal :=
  mkTraversal (to_uint32 i_) mint_.

(** [int ni = todo[stackptr].i]: the member read back into an [int]. *)
Definition read_index (e : Traversal) : Z := to_int32 (TraverserImpl.i e).

(** [r] is the default-constructed intersection or a valid value that the
    intersector gave for a primitive of the array. *)
Definition reported {Primitive Ray Payload : Type}
           (intersector : Primitive -> Ray -> Intersection Payload)
           (build_prims : list Primitive) (ray : Ray)
           (r : Intersection Payload) : Prop :=
  r = no_hit
  \/ exists obj, In obj build_prims
                 /\ intersector obj ray = r /\ valid r = true.

(** * Properties *)

(** ** The order on scalars *)

Ltac float_cases :=
  unfold fgt, flt, fle, fne, is_nan, infinity in *;
  repeat match goal with
         | x : Float |- _ => destruct x
         end;
  simpl in *; try congruence; try lia.

Lemma flt_fle_trans (a b c : Float) :
  flt a b = true -> fle b c = true -> flt a c = true.
Proof. float_cases. Qed.

Lemma fle_trans (a b c : Float) :
  fle a b = true -> fle b c = true -> fle a c = true.
Proof. float_cases. Qed.

Lemma fle_refl (a : Float) : is_nan a = false -> fle a a = true.
Proof. float_cases. Qed.

Lemma fle_antisym (a b : Float) :
  fle a b = true -> fle b a = true -> a = b.
Proof. float_cases. intros. f_equal. lia. Qed.

Lemma flt_fle (a b : Float) : flt a b = true -> fle a b = true.
Proof. float_cases. Qed.

Lemma not_flt_fle (a b : Float) :
  is_nan a = false -> is_nan b = false -> flt a b = false -> fle b a = true.
Proof. float_cases. Qed.

Lemma fle_not_nan (a b : Float) :
  fle a b = true -> is_nan a = false /\ is_nan b = false.
Proof. float_cases; auto. Qed.

Lemma fle_infinity (a : Float) : is_nan a = false -> fle a infinity = true.
Proof. float_cases. Qed.

Lemma infinity_fle (a : Float) : fle infinity a = true -> a = infinity.
Proof. float_cases. Qed.

Lemma fgt_infinity (a : Float) : fgt a infinity = false.
Proof. float_cases. Qed.

Lemma valid_no_hit (Payload : Type) : valid (@no_hit Payload) = false.
Proof. reflexivity. Qed.

Lemma invalid_t (Payload : Type) (x : Intersection Payload) :
  valid x = false -> t x = infinity.
Proof. unfold valid. destruct x as [tx px]; simpl. float_cases. Qed.

Lemma valid_t (Payload : Type) (x : Intersection Payload) :
  valid x = true -> t x <> infinity.
Proof. unfold valid. destruct x as [tx px]; simpl. float_cases. Qed.

(** The modelled [closest] does what the data model says of the merge
    rule: an invalid operand loses to a valid one on either side, and two
    invalid operands give an invalid result. *)
Lemma closest_valid_invalid (Payload : Type) (a b : Intersection Payload) :
  is_nan (t a) = false -> valid a = true -> valid b = false ->
  closest a b = a /\ closest b a = a.
Proof.
  unfold valid, closest. destruct a as [ta pa], b as [tb pb]; simpl.
  float_cases; auto.
Qed.

Lemma closest_invalid_invalid (Payload : Type) (a b : Intersection Payload) :
  valid a = false -> valid b = false -> valid (closest a b) = false.
Proof.
  unfold closest. intros Ha Hb. destruct (flt (t a) (t b)); assumption.
Qed.

(** ** Index conversions *)

Lemma to_int32_small (z : Z) : 0 <= z < 2 ^ 31 -> to_int32 z = z.
Proof.
  intros H. unfold to_int32.
  change (2 ^ 31) with 2147483648 in *. change (2 ^ 32) with 4294967296.
  rewrite Z.mod_small; lia.
Qed.

Lemma to_uint32_small (z : Z) : 0 <= z < 2 ^ 32 -> to_uint32 z = z.
Proof. intros H. unfold to_uint32. apply Z.mod_small. exact H. Qed.

(** ** Lists *)

Lemma skipn_nth_error (A : Type) (l : list A) (k : nat) :
  (k < length l)%nat ->
  exists x, nth_error l k = Some x /\ skipn k l = x :: skipn (S k) l.
Proof.
  revert k. induction l as [|a l IH]; intros k Hk; simpl in Hk.
  - lia.
  - destruct k as [|k].
    + exists a. split; reflexivity.
    + destruct (IH k) as [x [Hx Hs]]; [lia|].
      exists x. split; [exact Hx|]. simpl. exact Hs.
Qed.

(** ** The layout of a hierarchy *)

Section Layout.

Context {BBox : Type}.

Lemma size_pos (tr : Tree BBox) : (1 <= size tr)%nat.
Proof. destruct tr; simpl; lia. Qed.

Lemma depth_pos (tr : Tree BBox) : (1 <= depth tr)%nat.
Proof. destruct tr; simpl; lia. Qed.

Lemma flatten_length (tr : Tree BBox) : length (flatten tr) = size tr.
Proof.
  induction tr as [b s n|b s n l IHl r IHr]; simpl.
  - reflexivity.
  - rewrite length_app, IHl, IHr. reflexivity.
Qed.

Lemma located_bound (tr sub : Tree BBox) (k : nat) :
  located tr k sub -> (k + size sub <= size tr)%nat.
Proof.
  induction 1; simpl in *; lia.
Qed.

Lemma located_depth (tr sub : Tree BBox) (k : nat) :
  located tr k sub -> (depth sub <= depth tr)%nat.
Proof.
  induction 1; simpl in *; lia.
Qed.

Lemma located_node (tr sub : Tree BBox) (k : nat) :
  located tr k sub -> nth_error (flatten tr) k = Some (root_node sub).
Proof.
  induction 1 as [tr|b s n l r k sub H IH|b s n l r k sub H IH].
  - destruct tr; reflexivity.
  - simpl. rewrite nth_error_app1; [exact IH|].
    rewrite flatten_length. apply located_bound in H.
    pose proof (size_pos sub). lia.
  - simpl. rewrite nth_error_app2; rewrite flatten_length; [|lia].
    replace (size l + k - size l)%nat with k by lia. exact IH.
Qed.

Lemma located_left (tr : Tree BBox) (k : nat) b s n l r :
  located tr k (TInner b s n l r) -> located tr (S k) l.
Proof.
  intros H. remember (TInner b s n l r) as sub eqn:E.
  induction H as [tr|b' s' n' l' r' k sub H IH|b' s' n' l' r' k sub H IH].
  - subst tr. apply loc_left. apply loc_here.
  - apply loc_left. apply IH. exact E.
  - replace (S (S (size l' + k))) with (S (size l' + S k)) by lia.
    apply loc_right. apply IH. exact E.
Qed.

Lemma located_right (tr : Tree BBox) (k : nat) b s n l r :
  located tr k (TInner b s n l r) -> located tr (S (k + size l)) r.
Proof.
  intros H. remember (TInner b s n l r) as sub eqn:E.
  induction H as [tr|b' s' n' l' r' k sub H IH|b' s' n' l' r' k sub H IH].
  - subst tr. replace (S (0 + size l)) with (S (size l + 0)) by lia.
    apply loc_right. apply loc_here.
  - apply loc_left. apply IH. exact E.
  - replace (S (S (size l' + k) + size l))
      with (S (size l' + S (k + size l))) by lia.
    apply loc_right. apply IH. exact E.
Qed.

End Layout.

Lemma ranges_ok_located (Primitive BBox : Type) (prims : list Primitive)
      (tr sub : Tree BBox) (k : nat) :
  located tr k sub ->
  ranges_ok prims tr = true -> ranges_ok prims sub = true.
Proof.
  induction 1 as [tr|b s n l r k sub H IH|b s n l r k sub H IH];
    simpl; intros Hr.
  - exact Hr.
  - apply IH. apply andb_prop in Hr. tauto.
  - apply IH. apply andb_prop in Hr. tauto.
Qed.

(** ** The loop on a flattened hierarchy *)

Section Simulation.

Context {Primitive Ray BBox Payload : Type}.
Variable intersector : Primitive -> Ray -> Intersection Payload.
Variable bbox_intersect : BBox -> Ray -> option (Float * Float).
Variable build_prims : list Primitive.
Variable tree : Tree BBox.
Variable ray : Ray.
Variable occlusion : bool.

Local Abbreviation flatTree := (flatten tree).
Local Abbreviation VISIT_NODE :=
  (visit_node intersector bbox_intersect flatTree build_prims ray occlusion).
Local Abbreviation STEP :=
  (step_with intersector bbox_intersect flatTree build_prims ray occlusion).
Local Abbreviation SCAN_LEAF :=
  (scan_leaf intersector build_prims ray occlusion).
Local Abbreviation SCAN_LIST := (scan_list intersector ray occlusion).

Hypothesis size_fits : Z.of_nat (size tree) < 2 ^ 31.

Lemma node_at_located (k : nat) (sub : Tree BBox) :
  located tree k sub ->
  node_at flatTree (Z.of_nat k) = Some (root_node sub).
Proof.
  intros H. unfold node_at.
  destruct (Z.ltb_spec (Z.of_nat k) 0) as [Hneg|_]; [lia|].
  rewrite Nat2Z.id. apply located_node. exact H.
Qed.

Lemma step_top (pruning : bool) (k : nat) (sub : Tree BBox)
      (near : Float) (rest : list Traversal) (best : Intersection Payload) :
  located tree k sub ->
  STEP pruning (mkState (mkTraversal (Z.of_nat k) near :: rest) best) =
    if pruning && fgt near (t best)
    then Continue (mkState rest best)
    else VISIT_NODE (Z.of_nat k) (root_node sub) rest best.
Proof.
  intros H. unfold step_with. simpl.
  pose proof (located_bound _ _ _ H) as Hb. pose proof (size_pos sub).
  rewrite to_int32_small by lia.
  rewrite (node_at_located _ _ H). reflexivity.
Qed.

Lemma visit_node_inner (k : nat) b s n l r
      (rest : list Traversal) (best : Intersection Payload) :
  located tree k (TInner b s n l r) ->
  (length rest + 2 <= 64)%nat ->
  VISIT_NODE (Z.of_nat k) (root_node (TInner b s n l r)) rest best =
    Continue (mkState (pushed bbox_intersect ray k l r ++ rest) best).
Proof.
  intros H Hlen.
  pose proof (located_bound _ _ _ H) as Hb. simpl in Hb.
  pose proof (size_pos l). pose proof (size_pos r).
  pose proof (located_left _ _ _ _ _ _ _ H) as Hl.
  pose proof (located_right _ _ _ _ _ _ _ H) as Hr.
  unfold visit_node, pushed. cbn [root_node rightOffset].
  destruct (Z.eqb_spec (1 + Z.of_nat (size l)) 0) as [E|_]; [lia|].
  cbv zeta.
  assert (E1 : Z.of_nat k + 1 = Z.of_nat (S k)) by lia.
  assert (E2 : to_uint32 (Z.of_nat k + (1 + Z.of_nat (size l)))
               = Z.of_nat (S (k + size l))).
  { rewrite to_uint32_small; change (2 ^ 32) with 4294967296;
      change (2 ^ 31) with 2147483648 in *; lia. }
  rewrite E1, E2.
  rewrite (node_at_located _ _ Hl), (node_at_located _ _ Hr).
  assert (B : forall x : Tree BBox, bbox (root_node x) = root_bbox x)
    by (intros []; reflexivity).
  rewrite !B.
  assert (C1 : to_uint32 (to_int32 (Z.of_nat (S k))) = Z.of_nat (S k)).
  { rewrite to_int32_small, to_uint32_small;
      change (2 ^ 32) with 4294967296;
      change (2 ^ 31) with 2147483648 in *; lia. }
  assert (C2 : to_uint32 (to_int32 (Z.of_nat (S (k + size l))))
               = Z.of_nat (S (k + size l))).
  { rewrite to_int32_small, to_uint32_small;
      change (2 ^ 32) with 4294967296;
      change (2 ^ 31) with 2147483648 in *; lia. }
  assert (C3 : to_uint32 (Z.of_nat (S k)) = Z.of_nat (S k)).
  { rewrite to_uint32_small; change (2 ^ 32) with 4294967296;
      change (2 ^ 31) with 2147483648 in *; lia. }
  assert (P1 : forall e, push e rest = Some (e :: rest)).
  { intros e. unfold push, todo_capacity.
    destruct (Z.ltb_spec (Z.of_nat (length rest)) 64); [reflexivity|lia]. }
  assert (P2 : forall e e', push e (e' :: rest) = Some (e :: e' :: rest)).
  { intros e e'. unfold push, todo_capacity. simpl length.
    destruct (Z.ltb_spec (Z.of_nat (S (length rest))) 64);
      [reflexivity|lia]. }
  destruct (bbox_intersect (root_bbox l) ray) as [[n0 f0]|];
    destruct (bbox_intersect (root_bbox r) ray) as [[n1 f1]|].
  - destruct (flt n1 n0); unfold push2; rewrite P1, P2, C1, C2;
      reflexivity.
  - unfold push1. rewrite P1, C3. reflexivity.
  - unfold push1. rewrite P1, C2. reflexivity.
  - reflexivity.
Qed.

(** The leaf loop reads exactly the slice of the primitive array. *)
Lemma scan_leaf_slice (node : Node BBox) (count : nat) (o : Z)
      (best : Intersection Payload) :
  0 <= start node -> 0 <= o ->
  start node + o + Z.of_nat count <= Z.of_nat (length build_prims) ->
  Z.of_nat (length build_prims) <= 2 ^ 32 ->
  SCAN_LEAF node count o best =
    match SCAN_LIST
            (firstn count (skipn (Z.to_nat (start node + o)) build_prims))
            best with
    | Go b => LeafDone b
    | Stop h => LeafHit h
    end.
Proof.
  revert o best. induction count as [|count IH]; intros o best Hs Ho Hle Hcap.
  - reflexivity.
  - simpl scan_leaf.
    rewrite to_uint32_small by lia.
    unfold prim_at.
    destruct (Z.ltb_spec (start node + o) 0) as [Hneg|_]; [lia|].
    destruct (skipn_nth_error _ build_prims (Z.to_nat (start node + o)))
      as [x [Hx Hsk]]; [lia|].
    replace (S (Z.to_nat (start node + o)))
      with (Z.to_nat (start node + (o + 1))) in Hsk by lia.
    rewrite Hx, Hsk. cbn [firstn scan_list].
    destruct (valid (intersector x ray)).
    + destruct occlusion; [reflexivity|]. apply IH; lia.
    + apply IH; lia.
Qed.

Hypothesis prims_fit : Z.of_nat (length build_prims) <= 2 ^ 32.

Lemma visit_node_leaf (k : Z) b s n
      (rest : list Traversal) (best : Intersection Payload) :
  ranges_ok build_prims (TLeaf b s n) = true ->
  VISIT_NODE k (root_node (TLeaf b s n)) rest best =
    match SCAN_LIST (slice build_prims s n) best with
    | Go b' => Continue (mkState rest b')
    | Stop h => Return h
    end.
Proof.
  intros Hr. simpl in Hr.
  apply andb_prop in Hr. destruct Hr as [Hr H3].
  apply andb_prop in Hr. destruct Hr as [H1 H2].
  apply Z.leb_le in H1, H2, H3.
  unfold visit_node. cbn [root_node rightOffset nPrims].
  change (0 =? 0) with true. cbv iota.
  rewrite scan_leaf_slice; cbn [start]; try lia.
  unfold slice. rewrite Z.add_0_r.
  destruct (SCAN_LIST _ best); reflexivity.
Qed.

Hypothesis ranges : ranges_ok build_prims tree = true.

Local Abbreviation VISIT :=
  (visit intersector bbox_intersect build_prims ray).

(** Stack discipline: with the entry of a subtree on top, the loop runs
    until that entry and its descendants are consumed, leaves the entries
    below untouched, and has then computed [visit]. *)
Lemma run_visit (pruning : bool) (sub : Tree BBox) :
  forall (k : nat) (near : Float) (rest : list Traversal)
         (best : Intersection Payload),
    located tree k sub ->
    (length rest + depth sub <= 64)%nat ->
    exists n : nat, forall fuel : nat,
      run (STEP pruning) (n + fuel)
          (mkState (mkTraversal (Z.of_nat k) near :: rest) best) =
      match VISIT pruning occlusion sub near best with
      | Go b => run (STEP pruning) fuel (mkState rest b)
      | Stop h => Returned h
      end.
Proof.
  induction sub as [b s n|b s n l IHl r IHr];
    intros k near rest best Hloc Hlen.
  - exists 1%nat. intros fuel. cbn [Nat.add run visit].
    rewrite (step_top _ _ _ _ _ _ Hloc).
    destruct (pruning && fgt near (t best)); [reflexivity|].
    rewrite visit_node_leaf
      by (eapply ranges_ok_located; [exact Hloc|exact ranges]).
    destruct (SCAN_LIST (slice build_prims s n) best); reflexivity.
  - pose proof (located_left _ _ _ _ _ _ _ Hloc) as Hl.
    pose proof (located_right _ _ _ _ _ _ _ Hloc) as Hr.
    pose proof (depth_pos l) as Dl. pose proof (depth_pos r) as Dr.
    cbn [depth] in Hlen.
    assert (Hstep : forall fuel,
               run (STEP pruning) (S fuel)
                   (mkState (mkTraversal (Z.of_nat k) near :: rest) best) =
               if pruning && fgt near (t best)
               then run (STEP pruning) fuel (mkState rest best)
               else run (STEP pruning) fuel
                        (mkState (pushed bbox_intersect ray k l r ++ rest)
                                 best)).
    { intros fuel. cbn [run]. rewrite (step_top _ _ _ _ _ _ Hloc).
      destruct (pruning && fgt near (t best)); [reflexivity|].
      rewrite visit_node_inner by (try exact Hloc; lia). reflexivity. }
    cbn [visit]. unfold pushed in Hstep.
    destruct (pruning && fgt near (t best)).
    { exists 1%nat. intros fuel. apply Hstep. }
    destruct (bbox_intersect (root_bbox l) ray) as [[n0 f0]|];
      destruct (bbox_intersect (root_bbox r) ray) as [[n1 f1]|].
    + destruct (flt n1 n0).
      * destruct (IHr _ n1 (mkTraversal (Z.of_nat (S k)) n0 :: rest) best Hr)
          as [nr Hnr]; [simpl length; lia|].
        destruct (VISIT pruning occlusion r n1 best) as [b1|h]; cbn [and_then].
        -- destruct (IHl _ n0 rest b1 Hl) as [nl Hnl]; [lia|].
           exists (S (nr + nl)). intros fuel.
           replace (S (nr + nl) + fuel)%nat with (S (nr + (nl + fuel)))
             by lia.
           rewrite Hstep. cbn [app]. rewrite Hnr. apply Hnl.
        -- exists (S nr). intros fuel. cbn [Nat.add].
           rewrite Hstep. cbn [app]. apply Hnr.
      * destruct (IHl _ n0
                      (mkTraversal (Z.of_nat (S (k + size l))) n1 :: rest)
                      best Hl)
          as [nl Hnl]; [simpl length; lia|].
        destruct (VISIT pruning occlusion l n0 best) as [b1|h]; cbn [and_then].
        -- destruct (IHr _ n1 rest b1 Hr) as [nr Hnr]; [lia|].
           exists (S (nl + nr)). intros fuel.
           replace (S (nl + nr) + fuel)%nat with (S (nl + (nr + fuel)))
             by lia.
           rewrite Hstep. cbn [app]. rewrite Hnl. apply Hnr.
        -- exists (S nl). intros fuel. cbn [Nat.add].
           rewrite Hstep. cbn [app]. apply Hnl.
    + destruct (IHl _ n0 rest best Hl) as [nl Hnl]; [lia|].
      exists (S nl). intros fuel. cbn [Nat.add].
      rewrite Hstep. cbn [app]. apply Hnl.
    + destruct (IHr _ n1 rest best Hr) as [nr Hnr]; [lia|].
      exists (S nr). intros fuel. cbn [Nat.add].
      rewrite Hstep. cbn [app]. apply Hnr.
    + exists 1%nat. intros fuel. cbn [Nat.add].
      rewrite Hstep. reflexivity.
Qed.

End Simulation.

(** ** Least hit distances *)

Section MinT.

Context {Payload : Type}.
Implicit Types (a b c h : Intersection Payload).
Implicit Types (hs : list (Intersection Payload)).

Lemma invalid_or_number a :
  valid a = false -> is_nan (t a) = false.
Proof. unfold valid. destruct a as [ta pa]; simpl. float_cases. Qed.

Lemma closest_cases a b :
  is_nan (t a) = false -> is_nan (t b) = false ->
  (closest a b = a \/ closest a b = b)
  /\ fle (t (closest a b)) (t a) = true
  /\ fle (t (closest a b)) (t b) = true.
Proof.
  intros Ha Hb. unfold closest.
  destruct (flt (t a) (t b)) eqn:E.
  - split; [left; reflexivity|]. split.
    + apply fle_refl. exact Ha.
    + apply flt_fle. exact E.
  - split; [right; reflexivity|]. split.
    + apply not_flt_fle; assumption.
    + apply fle_refl. exact Hb.
Qed.

Lemma min_t_self (tb : Float) hs :
  is_nan tb = false ->
  (forall h, In h hs -> valid h = true -> fle tb (t h) = true) ->
  is_min_t tb tb hs.
Proof.
  intros Hn H. split; [left; reflexivity|]. split.
  - apply fle_refl. exact Hn.
  - exact H.
Qed.

(** Going on from the minimum of one list through a second list gives the
    minimum of any list with the valid hits of both. *)
Lemma min_t_chain (x y tb : Float) hs1 hs2 hs :
  is_min_t x tb hs1 -> is_min_t y x hs2 ->
  (forall h, valid h = true -> In h hs <-> In h hs1 \/ In h hs2) ->
  is_min_t y tb hs.
Proof.
  intros [A1 [B1 C1]] [A2 [B2 C2]] Heq. split; [|split].
  - destruct A2 as [E|[h [Hin [Hv Ht]]]].
    + subst y. destruct A1 as [E|[h [Hin [Hv Ht]]]].
      * left. exact E.
      * right. exists h. split; [|split]; try assumption.
        apply Heq; [exact Hv|]. left. exact Hin.
    + right. exists h. split; [|split]; try assumption.
      apply Heq; [exact Hv|]. right. exact Hin.
  - eapply fle_trans; eassumption.
  - intros h Hin Hv. apply Heq in Hin; [|exact Hv].
    destruct Hin as [Hin|Hin].
    + eapply fle_trans; [exact B2|]. apply C1; assumption.
    + apply C2; assumption.
Qed.

Lemma min_t_equiv (x tb : Float) hs hs' :
  is_min_t x tb hs ->
  (forall h, valid h = true -> In h hs' <-> In h hs) ->
  is_min_t x tb hs'.
Proof.
  intros [A [B C]] Heq. split; [|split].
  - destruct A as [E|[h [Hin [Hv Ht]]]]; [left; exact E|].
    right. exists h. split; [|split]; try assumption.
    apply Heq; assumption.
  - exact B.
  - intros h Hin Hv. apply C; [|exact Hv]. apply Heq; assumption.
Qed.

Lemma min_t_unique (x y tb : Float) hs :
  is_min_t x tb hs -> is_min_t y tb hs -> x = y.
Proof.
  intros [A1 [B1 C1]] [A2 [B2 C2]]. apply fle_antisym.
  - destruct A2 as [E|[h [Hin [Hv Ht]]]].
    + subst y. exact B1.
    + subst y. apply C1; assumption.
  - destruct A1 as [E|[h [Hin [Hv Ht]]]].
    + subst x. exact B2.
    + subst x. apply C2; assumption.
Qed.

(** The minimum decides validity. *)
Lemma min_t_invalid (x : Float) hs :
  is_min_t x infinity hs ->
  (x = infinity <-> forall h, In h hs -> valid h = false).
Proof.
  intros [A [B C]]. split.
  - intros E h Hin. destruct (valid h) eqn:Hv; [|reflexivity].
    exfalso. specialize (C h Hin Hv). subst x.
    apply infinity_fle in C. apply valid_t in Hv. contradiction.
  - intros Hall. destruct A as [E|[h [Hin [Hv Ht]]]]; [exact E|].
    rewrite (Hall h Hin) in Hv. discriminate.
Qed.

End MinT.

(** ** What [visit] computes *)

Section VisitFacts.

Context {Primitive Ray BBox Payload : Type}.
Variable intersector : Primitive -> Ray -> Intersection Payload.
Variable bbox_intersect : BBox -> Ray -> option (Float * Float).
Variable build_prims : list Primitive.
Variable ray : Ray.

Local Abbreviation HITS := (@hits _ _ BBox _ intersector build_prims ray).
Local Abbreviation ENCLOSES :=
  (encloses intersector bbox_intersect build_prims ray).
Local Abbreviation BOX_OK := (box_ok bbox_intersect ray).
Local Abbreviation VISIT :=
  (visit intersector bbox_intersect build_prims ray).
Local Abbreviation SCAN_LIST := (scan_list intersector ray).
Local Abbreviation ISECT := (fun obj => intersector obj ray).

Implicit Types (sub : Tree BBox) (best h : Intersection Payload).

(** *** Enclosure *)

Lemma box_ok_hit (b : BBox) (hs : list (Intersection Payload))
      (near far : Float) :
  BOX_OK b hs = true -> bbox_intersect b ray = Some (near, far) ->
  forall h, In h hs -> valid h = true -> fle near (t h) = true.
Proof.
  unfold box_ok. intros Hb E h Hin Hv. rewrite E in Hb.
  rewrite forallb_forall in Hb. specialize (Hb h Hin).
  rewrite Hv in Hb. exact Hb.
Qed.

Lemma box_ok_miss (b : BBox) (hs : list (Intersection Payload)) :
  BOX_OK b hs = true -> bbox_intersect b ray = None ->
  forall h, In h hs -> valid h = false.
Proof.
  unfold box_ok. intros Hb E h Hin. rewrite E in Hb.
  rewrite forallb_forall in Hb. specialize (Hb h Hin).
  apply negb_true_iff in Hb. exact Hb.
Qed.

Lemma encloses_root sub :
  ENCLOSES sub = true -> BOX_OK (root_bbox sub) (HITS sub) = true.
Proof.
  destruct sub as [b s n|b s n l r]; simpl; intros H.
  - exact H.
  - apply andb_prop in H. destruct H as [H _].
    apply andb_prop in H. destruct H as [H _]. exact H.
Qed.

Lemma encloses_children b s n l r :
  ENCLOSES (TInner b s n l r) = true ->
  ENCLOSES l = true /\ ENCLOSES r = true.
Proof.
  simpl. intros H.
  apply andb_prop in H. destruct H as [H Hr].
  apply andb_prop in H. destruct H as [_ Hl]. split; assumption.
Qed.

Lemma hits_inner b s n l r :
  HITS (TInner b s n l r) = HITS l ++ HITS r.
Proof. unfold hits. simpl. apply map_app. Qed.

Lemma encloses_number sub h :
  ENCLOSES sub = true -> In h (HITS sub) -> is_nan (t h) = false.
Proof.
  intros He Hin. apply encloses_root in He.
  destruct (valid h) eqn:Hv; [|apply invalid_or_number; exact Hv].
  destruct (bbox_intersect (root_bbox sub) ray) as [[near far]|] eqn:E.
  - apply (fle_not_nan near). eapply box_ok_hit; eassumption.
  - rewrite (box_ok_miss _ _ He E h Hin) in Hv. discriminate.
Qed.

(** *** Nearest mode *)

Lemma scan_list_nearest (objs : list Primitive) best :
  is_nan (t best) = false ->
  (forall h, In h (map ISECT objs) -> is_nan (t h) = false) ->
  exists b, SCAN_LIST false objs best = Go b
            /\ is_min_t (t b) (t best) (map ISECT objs).
Proof.
  revert best. induction objs as [|obj objs IH]; intros best Hn Hall.
  - exists best. split; [reflexivity|].
    apply min_t_self; [exact Hn|]. intros h [].
  - cbn [scan_list map].
    assert (Hc : is_nan (t (intersector obj ray)) = false)
      by (apply Hall; left; reflexivity).
    assert (Hall' : forall h, In h (map ISECT objs) -> is_nan (t h) = false)
      by (intros h Hin; apply Hall; right; exact Hin).
    destruct (valid (intersector obj ray)) eqn:Hv.
    + destruct (closest_cases best (intersector obj ray) Hn Hc)
        as [Hor [H1 H2]].
      destruct (IH (closest best (intersector obj ray))) as [b [Hb Hm]].
      { destruct Hor as [E|E]; rewrite E; assumption. }
      { exact Hall'. }
      exists b. split; [exact Hb|].
      apply (min_t_chain (t (closest best (intersector obj ray)))
                         (t b) (t best)
                         [intersector obj ray] (map ISECT objs)).
      * split; [|split].
        -- destruct Hor as [E|E]; rewrite E; [left; reflexivity|].
           right. exists (intersector obj ray).
           split; [left; reflexivity|]. split; [exact Hv|reflexivity].
        -- exact H1.
        -- intros h [E|[]] _. subst h. exact H2.
      * exact Hm.
      * intros h _. simpl. tauto.
    + destruct (IH best Hn Hall') as [b [Hb Hm]].
      exists b. split; [exact Hb|].
      apply (min_t_equiv _ _ (map ISECT objs)); [exact Hm|].
      intros h Hvh. simpl. split; [|tauto].
      intros [E|Hin]; [|exact Hin]. subst h.
      rewrite Hv in Hvh. discriminate.
Qed.

Lemma visit_nearest (pruning : bool) sub :
  forall near best,
    ENCLOSES sub = true ->
    is_nan (t best) = false ->
    (fgt near (t best) = true ->
     forall h, In h (HITS sub) -> valid h = true ->
               fle near (t h) = true) ->
    exists b, VISIT pruning false sub near best = Go b
              /\ is_min_t (t b) (t best) (HITS sub).
Proof.
  induction sub as [b s n|b s n l IHl r IHr]; intros near best He Hn Hlb.
  - cbn [visit]. destruct (pruning && fgt near (t best)) eqn:P.
    + apply andb_prop in P. destruct P as [_ P].
      exists best. split; [reflexivity|].
      apply min_t_self; [exact Hn|]. intros h Hin Hv.
      apply flt_fle. eapply flt_fle_trans; [exact P|].
      apply Hlb; assumption.
    + apply scan_list_nearest; [exact Hn|].
      intros h Hin. eapply encloses_number; [exact He|exact Hin].
  - cbn [visit]. destruct (pruning && fgt near (t best)) eqn:P.
    + apply andb_prop in P. destruct P as [_ P].
      exists best. split; [reflexivity|].
      apply min_t_self; [exact Hn|]. intros h Hin Hv.
      apply flt_fle. eapply flt_fle_trans; [exact P|].
      apply Hlb; assumption.
    + clear P Hlb.
      destruct (encloses_children _ _ _ _ _ He) as [Hel Her].
      pose proof (encloses_root _ Hel) as Bl.
      pose proof (encloses_root _ Her) as Br.
      rewrite hits_inner.
      destruct (bbox_intersect (root_bbox l) ray) as [[n0 f0]|] eqn:E0;
        destruct (bbox_intersect (root_bbox r) ray) as [[n1 f1]|] eqn:E1.
      * destruct (flt n1 n0).
        -- destruct (IHr n1 best Her Hn) as [b1 [V1 M1]].
           { intros _. eapply box_ok_hit; [|eassumption]; eassumption. }
           rewrite V1. cbn [and_then].
           destruct (IHl n0 b1 Hel) as [b2 [V2 M2]].
           { destruct M1 as [_ [M1 _]]. apply fle_not_nan in M1. tauto. }
           { intros _. eapply box_ok_hit; [|eassumption]; eassumption. }
           exists b2. split; [exact V2|].
           eapply min_t_chain; [exact M1|exact M2|].
           intros h _. rewrite in_app_iff. tauto.
        -- destruct (IHl n0 best Hel Hn) as [b1 [V1 M1]].
           { intros _. eapply box_ok_hit; [|eassumption]; eassumption. }
           rewrite V1. cbn [and_then].
           destruct (IHr n1 b1 Her) as [b2 [V2 M2]].
           { destruct M1 as [_ [M1 _]]. apply fle_not_nan in M1. tauto. }
           { intros _. eapply box_ok_hit; [|eassumption]; eassumption. }
           exists b2. split; [exact V2|].
           eapply min_t_chain; [exact M1|exact M2|].
           intros h _. rewrite in_app_iff. tauto.
      * destruct (IHl n0 best Hel Hn) as [b1 [V1 M1]].
        { intros _. eapply box_ok_hit; [|eassumption]; eassumption. }
        exists b1. split; [exact V1|].
        apply (min_t_equiv _ _ (HITS l)); [exact M1|].
        intros h Hv. rewrite in_app_iff. split; [|tauto].
        intros [Hin|Hin]; [exact Hin|].
        rewrite (box_ok_miss _ _ Br E1 h Hin) in Hv. discriminate.
      * destruct (IHr n1 best Her Hn) as [b1 [V1 M1]].
        { intros _. eapply box_ok_hit; [|eassumption]; eassumption. }
        exists b1. split; [exact V1|].
        apply (min_t_equiv _ _ (HITS r)); [exact M1|].
        intros h Hv. rewrite in_app_iff. split; [|tauto].
        intros [Hin|Hin]; [|exact Hin].
        rewrite (box_ok_miss _ _ Bl E0 h Hin) in Hv. discriminate.
      * exists best. split; [reflexivity|].
        apply min_t_self; [exact Hn|]. intros h Hin Hv.
        apply in_app_iff in Hin. destruct Hin as [Hin|Hin].
        -- rewrite (box_ok_miss _ _ Bl E0 h Hin) in Hv. discriminate.
        -- rewrite (box_ok_miss _ _ Br E1 h Hin) in Hv. discriminate.
Qed.

(** *** Occlusion mode *)

Lemma scan_list_occlusion (objs : list Primitive) best :
  match SCAN_LIST true objs best with
  | Go b => b = best /\ forall h, In h (map ISECT objs) -> valid h = false
  | Stop h => In h (map ISECT objs) /\ valid h = true
  end.
Proof.
  induction objs as [|obj objs IH]; cbn [scan_list map].
  - split; [reflexivity|]. intros h [].
  - destruct (valid (intersector obj ray)) eqn:Hv.
    + split; [left; reflexivity|exact Hv].
    + destruct (SCAN_LIST true objs best) as [b|h].
      * destruct IH as [E Hall]. split; [exact E|].
        intros h [Eh|Hin]; [subst h; exact Hv|apply Hall; exact Hin].
      * destruct IH as [Hin Hvh]. split; [right; exact Hin|exact Hvh].
Qed.

Lemma visit_occlusion (pruning : bool) sub :
  forall near,
    ENCLOSES sub = true ->
    match VISIT pruning true sub near no_hit with
    | Go b => b = no_hit /\ forall h, In h (HITS sub) -> valid h = false
    | Stop h => In h (HITS sub) /\ valid h = true
    end.
Proof.
  induction sub as [b s n|b s n l IHl r IHr]; intros near He.
  - cbn [visit]. change (t (@no_hit Payload)) with infinity.
    rewrite fgt_infinity, andb_false_r. apply scan_list_occlusion.
  - cbn [visit]. change (t (@no_hit Payload)) with infinity.
    rewrite fgt_infinity, andb_false_r.
    destruct (encloses_children _ _ _ _ _ He) as [Hel Her].
    pose proof (encloses_root _ Hel) as Bl.
    pose proof (encloses_root _ Her) as Br.
    rewrite hits_inner.
    destruct (bbox_intersect (root_bbox l) ray) as [[n0 f0]|] eqn:E0;
      destruct (bbox_intersect (root_bbox r) ray) as [[n1 f1]|] eqn:E1.
    + destruct (flt n1 n0).
      * specialize (IHr n1 Her).
        destruct (VISIT pruning true r n1 no_hit) as [b1|h]; cbn [and_then].
        -- destruct IHr as [E Hr]. subst b1. specialize (IHl n0 Hel).
           destruct (VISIT pruning true l n0 no_hit) as [b2|h].
           ++ destruct IHl as [E Hl]. split; [exact E|].
              intros h Hin. apply in_app_iff in Hin.
              destruct Hin; [apply Hl|apply Hr]; assumption.
           ++ destruct IHl as [Hin Hv]. split; [|exact Hv].
              apply in_app_iff. left. exact Hin.
        -- destruct IHr as [Hin Hv]. split; [|exact Hv].
           apply in_app_iff. right. exact Hin.
      * specialize (IHl n0 Hel).
        destruct (VISIT pruning true l n0 no_hit) as [b1|h]; cbn [and_then].
        -- destruct IHl as [E Hl]. subst b1. specialize (IHr n1 Her).
           destruct (VISIT pruning true r n1 no_hit) as [b2|h].
           ++ destruct IHr as [E Hr]. split; [exact E|].
              intros h Hin. apply in_app_iff in Hin.
              destruct Hin; [apply Hl|apply Hr]; assumption.
           ++ destruct IHr as [Hin Hv]. split; [|exact Hv].
              apply in_app_iff. right. exact Hin.
        -- destruct IHl as [Hin Hv]. split; [|exact Hv].
           apply in_app_iff. left. exact Hin.
    + specialize (IHl n0 Hel).
      destruct (VISIT pruning true l n0 no_hit) as [b1|h].
      * destruct IHl as [E Hl]. split; [exact E|].
        intros h Hin. apply in_app_iff in Hin.
        destruct Hin as [Hin|Hin]; [apply Hl; exact Hin|].
        exact (box_ok_miss _ _ Br E1 h Hin).
      * destruct IHl as [Hin Hv]. split; [|exact Hv].
        apply in_app_iff. left. exact Hin.
    + specialize (IHr n1 Her).
      destruct (VISIT pruning true r n1 no_hit) as [b1|h].
      * destruct IHr as [E Hr]. split; [exact E|].
        intros h Hin. apply in_app_iff in Hin.
        destruct Hin as [Hin|Hin]; [|apply Hr; exact Hin].
        exact (box_ok_miss _ _ Bl E0 h Hin).
      * destruct IHr as [Hin Hv]. split; [|exact Hv].
        apply in_app_iff. right. exact Hin.
    + split; [reflexivity|]. intros h Hin. apply in_app_iff in Hin.
      destruct Hin as [Hin|Hin].
      * exact (box_ok_miss _ _ Bl E0 h Hin).
      * exact (box_ok_miss _ _ Br E1 h Hin).
Qed.

(** *** Pruning *)

(** Without the prune test, a subtree whose valid hits are all farther
    than the running best is walked through without effect. *)
Lemma scan_list_dead (objs : list Primitive) best :
  (forall h, In h (map ISECT objs) -> valid h = true ->
             flt (t best) (t h) = true) ->
  SCAN_LIST false objs best = Go best.
Proof.
  induction objs as [|obj objs IH]; intros Hall; cbn [scan_list].
  - reflexivity.
  - assert (Hall' : forall h, In h (map ISECT objs) -> valid h = true ->
                              flt (t best) (t h) = true)
      by (intros h Hin; apply Hall; right; exact Hin).
    destruct (valid (intersector obj ray)) eqn:Hv.
    + unfold closest. rewrite (Hall (intersector obj ray)).
      * apply IH. exact Hall'.
      * left. reflexivity.
      * exact Hv.
    + apply IH. exact Hall'.
Qed.

Lemma visit_dead sub :
  forall near best,
    (forall h, In h (HITS sub) -> valid h = true ->
               flt (t best) (t h) = true) ->
    VISIT false false sub near best = Go best.
Proof.
  induction sub as [b s n|b s n l IHl r IHr]; intros near best Hall;
    cbn [visit andb].
  - apply scan_list_dead. exact Hall.
  - rewrite hits_inner in Hall.
    assert (Hl : forall h, In h (HITS l) -> valid h = true ->
                           flt (t best) (t h) = true)
      by (intros h Hin; apply Hall; apply in_app_iff; left; exact Hin).
    assert (Hr : forall h, In h (HITS r) -> valid h = true ->
                           flt (t best) (t h) = true)
      by (intros h Hin; apply Hall; apply in_app_iff; right; exact Hin).
    destruct (bbox_intersect (root_bbox l) ray) as [[n0 f0]|];
      destruct (bbox_intersect (root_bbox r) ray) as [[n1 f1]|].
    + destruct (flt n1 n0).
      * rewrite (IHr n1 best Hr). cbn [and_then]. apply IHl. exact Hl.
      * rewrite (IHl n0 best Hl). cbn [and_then]. apply IHr. exact Hr.
    + apply IHl. exact Hl.
    + apply IHr. exact Hr.
    + reflexivity.
Qed.

Lemma visit_prune_irrelevant sub :
  forall near best,
    ENCLOSES sub = true ->
    (fgt near (t best) = true ->
     forall h, In h (HITS sub) -> valid h = true ->
               fle near (t h) = true) ->
    VISIT true false sub near best = VISIT false false sub near best.
Proof.
  induction sub as [b s n|b s n l IHl r IHr]; intros near best He Hlb.
  - cbn [visit andb]. destruct (fgt near (t best)) eqn:P; [|reflexivity].
    symmetry. apply scan_list_dead. intros h Hin Hv.
    eapply flt_fle_trans; [exact P|]. apply Hlb; auto.
  - destruct (fgt near (t best)) eqn:P.
    + rewrite (visit_dead (TInner b s n l r) near best).
      * cbn [visit andb]. rewrite P. reflexivity.
      * intros h Hin Hv. eapply flt_fle_trans; [exact P|].
        apply Hlb; auto.
    + cbn [visit andb]. rewrite P.
      destruct (encloses_children _ _ _ _ _ He) as [Hel Her].
      pose proof (encloses_root _ Hel) as Bl.
      pose proof (encloses_root _ Her) as Br.
      assert (Al : forall n0 f0 best',
                 bbox_intersect (root_bbox l) ray = Some (n0, f0) ->
                 VISIT true false l n0 best' = VISIT false false l n0 best').
      { intros n0 f0 best' E. apply IHl; [exact Hel|].
        intros _. eapply box_ok_hit; eassumption. }
      assert (Ar : forall n1 f1 best',
                 bbox_intersect (root_bbox r) ray = Some (n1, f1) ->
                 VISIT true false r n1 best' = VISIT false false r n1 best').
      { intros n1 f1 best' E. apply IHr; [exact Her|].
        intros _. eapply box_ok_hit; eassumption. }
      destruct (bbox_intersect (root_bbox l) ray) as [[n0 f0]|] eqn:E0;
        destruct (bbox_intersect (root_bbox r) ray) as [[n1 f1]|] eqn:E1.
      * destruct (flt n1 n0).
        -- rewrite (Ar n1 f1 best eq_refl).
           destruct (VISIT false false r n1 best) as [b1|h];
             cbn [and_then]; [|reflexivity].
           apply (Al n0 f0 b1 eq_refl).
        -- rewrite (Al n0 f0 best eq_refl).
           destruct (VISIT false false l n0 best) as [b1|h];
             cbn [and_then]; [|reflexivity].
           apply (Ar n1 f1 b1 eq_refl).
      * apply (Al n0 f0 best eq_refl).
      * apply (Ar n1 f1 best eq_refl).
      * reflexivity.
Qed.

(** *** The brute-force scan *)

Lemma fold_closest_min (objs : list Primitive) best :
  is_nan (t best) = false ->
  (forall h, In h (map ISECT objs) -> is_nan (t h) = false) ->
  is_min_t
    (t (fold_left (fun acc obj => closest acc (intersector obj ray))
                  objs best))
    (t best) (map ISECT objs).
Proof.
  revert best. induction objs as [|obj objs IH]; intros best Hn Hall.
  - cbn [fold_left map]. apply min_t_self; [exact Hn|]. intros h [].
  - cbn [fold_left map].
    assert (Hc : is_nan (t (intersector obj ray)) = false)
      by (apply Hall; left; reflexivity).
    destruct (closest_cases best (intersector obj ray) Hn Hc)
      as [Hor [H1 H2]].
    apply (min_t_chain (t (closest best (intersector obj ray)))
                       _ (t best)
                       [intersector obj ray] (map ISECT objs)).
    + split; [|split].
      * destruct Hor as [E|E]; rewrite E; [left; reflexivity|].
        destruct (valid (intersector obj ray)) eqn:Hv.
        -- right. exists (intersector obj ray).
           split; [left; reflexivity|]. split; [exact Hv|reflexivity].
        -- left. apply fle_antisym.
           ++ rewrite <- E. exact H1.
           ++ rewrite (invalid_t _ _ Hv). apply fle_infinity. exact Hn.
      * exact H1.
      * intros h [E|[]] _. subst h. exact H2.
    + apply IH.
      * destruct Hor as [E|E]; rewrite E; assumption.
      * intros h Hin. apply Hall. right. exact Hin.
    + intros h _. simpl. tauto.
Qed.

End VisitFacts.

(** ** Fuel *)

Section Fuel.

Context {Payload : Type}.
Variable stp : State Payload -> Step Payload.

(** A run that has ended keeps its outcome when given more steps. *)
Lemma run_more (fuel : nat) :
  forall (st : State Payload) (extra : nat),
    run stp fuel st <> OutOfFuel ->
    run stp (fuel + extra) st = run stp fuel st.
Proof.
  induction fuel as [|fuel IH]; intros st extra H.
  - simpl in H. congruence.
  - cbn [Nat.add run] in *. destruct (stp st) as [st'|r|f].
    + apply IH. exact H.
    + reflexivity.
    + reflexivity.
Qed.

Lemma run_agree (fuel1 fuel2 : nat) (st : State Payload) :
  run stp fuel1 st <> OutOfFuel -> run stp fuel2 st <> OutOfFuel ->
  run stp fuel1 st = run stp fuel2 st.
Proof.
  intros H1 H2.
  rewrite <- (run_more fuel1 st fuel2 H1).
  rewrite <- (run_more fuel2 st fuel1 H2).
  f_equal. apply Nat.add_comm.
Qed.

End Fuel.

(** ** Leaf ranges and the primitive array *)

Section Coverage.

Context {Primitive BBox : Type}.
Variable build_prims : list Primitive.

Lemma slice_incl (s n : Z) (x : Primitive) :
  In x (slice build_prims s n) -> In x build_prims.
Proof.
  unfold slice. intros H. apply In_nth_error in H. destruct H as [k H].
  rewrite nth_error_firstn in H.
  destruct (k <? Z.to_nat n)%nat; [|discriminate].
  rewrite nth_error_skipn in H. eapply nth_error_In. exact H.
Qed.

Lemma in_slice (s n : Z) (k : nat) (x : Primitive) :
  0 <= s -> s <= Z.of_nat k < s + n ->
  nth_error build_prims k = Some x -> In x (slice build_prims s n).
Proof.
  intros Hs Hk Hx. unfold slice.
  apply (nth_error_In _ (k - Z.to_nat s)).
  rewrite nth_error_firstn.
  destruct (Nat.ltb_spec (k - Z.to_nat s) (Z.to_nat n)) as [_|Hge]; [|lia].
  rewrite nth_error_skipn.
  replace (Z.to_nat s + (k - Z.to_nat s))%nat with k by lia. exact Hx.
Qed.

Lemma tree_prims_incl (tr : Tree BBox) (x : Primitive) :
  In x (tree_prims build_prims tr) -> In x build_prims.
Proof.
  induction tr as [b s n|b s n l IHl r IHr]; simpl; intros H.
  - eapply slice_incl. exact H.
  - apply in_app_iff in H. destruct H; auto.
Qed.

Lemma covered_in (tr : Tree BBox) (k : nat) (x : Primitive) :
  ranges_ok build_prims tr = true ->
  covered (Z.of_nat k) tr = true ->
  nth_error build_prims k = Some x -> In x (tree_prims build_prims tr).
Proof.
  induction tr as [b s n|b s n l IHl r IHr]; simpl; intros Hr Hc Hx.
  - apply andb_prop in Hr. destruct Hr as [Hr _].
    apply andb_prop in Hr. destruct Hr as [Hs _].
    apply andb_prop in Hc. destruct Hc as [H1 H2].
    apply (in_slice s n k); [lia|lia|exact Hx].
  - apply andb_prop in Hr. destruct Hr as [Hrl Hrr].
    apply in_app_iff. apply orb_prop in Hc. destruct Hc; auto.
Qed.

Lemma covers_incl (tr : Tree BBox) (x : Primitive) :
  ranges_ok build_prims tr = true -> covers build_prims tr = true ->
  In x build_prims -> In x (tree_prims build_prims tr).
Proof.
  intros Hr Hc Hin. apply In_nth_error in Hin. destruct Hin as [k Hk].
  unfold covers in Hc. rewrite forallb_forall in Hc.
  apply (covered_in tr k); [exact Hr| |exact Hk].
  apply Hc. apply in_seq.
  assert (k < length build_prims)%nat
    by (apply nth_error_Some; congruence).
  lia.
Qed.

End Coverage.

(** ** The traversal of a well-formed hierarchy *)

Section Traversal.

Context {Primitive Ray BBox Payload : Type}.
Variable intersector : Primitive -> Ray -> Intersection Payload.
Variable bbox_intersect : BBox -> Ray -> option (Float * Float).
Variable build_prims : list Primitive.
Variable tree : Tree BBox.
Variable ray : Ray.

Local Abbreviation STEP :=
  (step_with intersector bbox_intersect (flatten tree) build_prims ray).
Local Abbreviation VISIT :=
  (visit intersector bbox_intersect build_prims ray).
Local Abbreviation HITS := (@hits _ _ BBox _ intersector build_prims ray).
Local Abbreviation ISECT := (fun obj => intersector obj ray).

Lemma well_formed_parts :
  well_formed build_prims tree = true ->
  Z.of_nat (size tree) < 2 ^ 31
  /\ (depth tree <= 64)%nat
  /\ Z.of_nat (length build_prims) <= 2 ^ 32
  /\ ranges_ok build_prims tree = true.
Proof.
  unfold well_formed, todo_capacity. intros H.
  apply andb_prop in H. destruct H as [H H4].
  apply andb_prop in H. destruct H as [H H3].
  apply andb_prop in H. destruct H as [H1 H2].
  apply Z.ltb_lt in H1. apply Z.leb_le in H2, H3.
  repeat split; try assumption; lia.
Qed.

(** The loop started at loop entry ends, and returns what [visit]
    computes for the whole hierarchy. *)
Lemma run_returns_visit (occlusion pruning : bool) :
  well_formed build_prims tree = true ->
  exists fuel,
    run (STEP occlusion pruning) fuel (initial (Payload := Payload)) =
    Returned (match VISIT pruning occlusion tree root_mint no_hit with
              | Go b => b
              | Stop h => h
              end).
Proof.
  intros Hwf.
  destruct (well_formed_parts Hwf) as [Hsize [Hdepth [Hprims Hranges]]].
  destruct (run_visit intersector bbox_intersect build_prims tree ray
                      occlusion Hsize Hprims Hranges pruning tree
                      0%nat root_mint [] no_hit (loc_here tree))
    as [n Hn]; [simpl; lia|].
  exists (n + 1)%nat. unfold initial. change 0 with (Z.of_nat 0).
  rewrite Hn.
  destruct (VISIT pruning occlusion tree root_mint no_hit); reflexivity.
Qed.

Lemma hits_in_array (h : Intersection Payload) :
  In h (HITS tree) -> In h (map ISECT build_prims).
Proof.
  unfold hits. intros H. apply in_map_iff in H.
  destruct H as [obj [E Hin]]. apply in_map_iff. exists obj.
  split; [exact E|]. eapply tree_prims_incl. exact Hin.
Qed.

Lemma array_in_hits (h : Intersection Payload) :
  ranges_ok build_prims tree = true -> covers build_prims tree = true ->
  In h (map ISECT build_prims) -> In h (HITS tree).
Proof.
  unfold hits. intros Hr Hc H. apply in_map_iff in H.
  destruct H as [obj [E Hin]]. apply in_map_iff. exists obj.
  split; [exact E|]. apply covers_incl; assumption.
Qed.

Lemma valid_false_iff (x : Intersection Payload) :
  valid x = false <-> t x = infinity.
Proof.
  split; [apply invalid_t|].
  intros E. unfold valid. rewrite E. reflexivity.
Qed.

(** C1 (nearest-hit correctness).  For a hierarchy that meets the
    builder's contract (pre-order layout, index and depth limits, leaf
    ranges inside the primitive array and covering it) and whose boxes
    enclose the primitives below them, nearest-mode [traverse] ends and
    returns an intersection whose [t] is the [t] of the brute-force scan
    that folds the intersector's results over the whole primitive array
    with [closest]; the result is invalid exactly when the intersector
    reports no hit for any primitive. *)
Theorem nearest_hit_matches_brute_force :
  well_formed build_prims tree = true ->
  covers build_prims tree = true ->
  encloses intersector bbox_intersect build_prims ray tree = true ->
  exists fuel r,
    traverse_fuel intersector bbox_intersect (flatten tree) build_prims
                  ray false fuel = Returned r
    /\ t r = t (brute_force intersector build_prims ray)
    /\ (valid r = false <->
        forall obj, In obj build_prims ->
                    valid (intersector obj ray) = false).
Proof.
  intros Hwf Hcov Henc.
  destruct (well_formed_parts Hwf) as [_ [_ [_ Hranges]]].
  destruct (run_returns_visit false true Hwf) as [fuel Hrun].
  destruct (visit_nearest intersector bbox_intersect build_prims ray
                          true tree root_mint no_hit Henc eq_refl)
    as [b [Hv Hmin]].
  { change (t (@no_hit Payload)) with infinity.
    rewrite fgt_infinity. discriminate. }
  rewrite Hv in Hrun. exists fuel, b. split; [exact Hrun|].
  assert (Hmin' : is_min_t (t b) infinity (map ISECT build_prims)).
  { apply (min_t_equiv _ _ (HITS tree)); [exact Hmin|].
    intros h _. split; [apply array_in_hits; assumption|].
    apply hits_in_array. }
  split.
  - apply (min_t_unique _ _ infinity (map ISECT build_prims));
      [exact Hmin'|].
    apply (fold_closest_min intersector ray build_prims no_hit eq_refl).
    intros h Hin.
    apply (encloses_number intersector bbox_intersect build_prims ray
                           tree h Henc).
    apply array_in_hits; assumption.
  - rewrite valid_false_iff. rewrite (min_t_invalid _ _ Hmin'). split.
    + intros H obj Hin. apply H.
      exact (in_map (fun o => intersector o ray) _ _ Hin).
    + intros H h Hin. apply in_map_iff in Hin.
      destruct Hin as [obj [E Hin]]. subst h. apply H. exact Hin.
Qed.

Lemma scan_list_first_hit (objs : list Primitive)
      (best : Intersection Payload) :
  scan_list intersector ray true objs best =
  match find valid (map ISECT objs) with
  | Some h => Stop h
  | None => Go best
  end.
Proof.
  induction objs as [|obj objs IH]; cbn [scan_list map find].
  - reflexivity.
  - destruct (valid (intersector obj ray)); [reflexivity|exact IH].
Qed.

(** C2 (occlusion soundness).  For a hierarchy that meets the builder's
    contract and whose boxes enclose the primitives below them,
    occlusion-mode [traverse] ends; its result is valid exactly when the
    intersector reports a valid hit for some primitive of the array, and
    a valid result is what the intersector reported for a primitive of
    the tree.  The return is immediate: when a leaf with a valid hit is
    on top of the working set, that one iteration returns the first valid
    hit of the leaf, whatever is left on the working set. *)
Theorem occlusion_sound :
  well_formed build_prims tree = true ->
  covers build_prims tree = true ->
  encloses intersector bbox_intersect build_prims ray tree = true ->
  (exists fuel r,
      traverse_fuel intersector bbox_intersect (flatten tree) build_prims
                    ray true fuel = Returned r
      /\ (valid r = true <->
          exists obj, In obj build_prims
                      /\ valid (intersector obj ray) = true)
      /\ (valid r = true ->
          exists obj, In obj (tree_prims build_prims tree)
                      /\ r = intersector obj ray))
  /\ (forall k b s n near rest h,
         located tree k (TLeaf b s n) ->
         find valid (map ISECT (slice build_prims s n)) = Some h ->
         step intersector bbox_intersect (flatten tree) build_prims
              ray true
              (mkState (mkTraversal (Z.of_nat k) near :: rest) no_hit)
         = Return h).
Proof.
  intros Hwf Hcov Henc.
  destruct (well_formed_parts Hwf) as [Hsize [_ [Hprims Hranges]]].
  split.
  - destruct (run_returns_visit true true Hwf) as [fuel Hrun].
    pose proof (visit_occlusion intersector bbox_intersect build_prims
                                ray true tree root_mint Henc) as Hocc.
    destruct (VISIT true true tree root_mint no_hit) as [b|h].
    + destruct Hocc as [E Hall]. subst b.
      exists fuel, no_hit. split; [exact Hrun|]. split.
      * split; [discriminate|]. intros [obj [Hin Hv]].
        rewrite (Hall (intersector obj ray)) in Hv; [discriminate|].
        apply array_in_hits; try assumption.
        exact (in_map (fun o => intersector o ray) _ _ Hin).
      * discriminate.
    + destruct Hocc as [Hin Hv].
      exists fuel, h. split; [exact Hrun|].
      unfold hits in Hin. apply in_map_iff in Hin.
      destruct Hin as [obj [E Hin]]. split.
      * split; [|intros _; exact Hv]. intros _. exists obj.
        split; [eapply tree_prims_incl; exact Hin|].
        rewrite E. exact Hv.
      * intros _. exists obj. split; [exact Hin|]. symmetry. exact E.
  - intros k b s n near rest h Hloc Hfind. unfold step.
    rewrite (step_top intersector bbox_intersect build_prims tree ray
                      true Hsize true k _ near rest no_hit Hloc).
    change (t (@no_hit Payload)) with infinity.
    rewrite fgt_infinity. cbn [andb].
    rewrite visit_node_leaf;
      [|exact Hprims|eapply ranges_ok_located; [exact Hloc|exact Hranges]].
    rewrite scan_list_first_hit, Hfind. reflexivity.
Qed.

(** C3 (pruning equivalence).  For a hierarchy that meets the builder's
    contract and whose boxes enclose the primitives below them (so that
    no hit in a subtree is closer than the entry distance of its box),
    nearest-mode [traverse] and its variant without the test
    [near > intersection.t] both end and return the same intersection. *)
Theorem pruning_is_an_optimization :
  well_formed build_prims tree = true ->
  encloses intersector bbox_intersect build_prims ray tree = true ->
  exists r,
    (exists fuel,
        traverse_fuel intersector bbox_intersect (flatten tree)
                      build_prims ray false fuel = Returned r)
    /\ (exists fuel,
           traverse_unpruned_fuel intersector bbox_intersect (flatten tree)
                                  build_prims ray false fuel = Returned r).
Proof.
  intros Hwf Henc.
  destruct (run_returns_visit false true Hwf) as [fuel1 Hrun1].
  destruct (run_returns_visit false false Hwf) as [fuel2 Hrun2].
  rewrite (visit_prune_irrelevant intersector bbox_intersect build_prims
                                  ray tree root_mint no_hit Henc)
    in Hrun1.
  - eexists. split; [exists fuel1; exact Hrun1|exists fuel2; exact Hrun2].
  - change (t (@no_hit Payload)) with infinity.
    rewrite fgt_infinity. discriminate.
Qed.

(** C5 (termination), with the depth bound made explicit.  For a
    hierarchy that meets the builder's contract, in particular one whose
    depth, counted in nodes, does not exceed the 64 entries of the working
    set, [traverse] ends and returns a result in both modes; a leaf
    without primitives that is visited leaves the running best and the
    rest of the working set as they are. *)
Theorem traverse_terminates :
  well_formed build_prims tree = true ->
  forall occlusion : bool,
    (exists fuel r,
        traverse_fuel intersector bbox_intersect (flatten tree)
                      build_prims ray occlusion fuel = Returned r)
    /\ (forall k b s near rest best,
           located tree k (TLeaf b s 0) ->
           fgt near (t best) = false ->
           step intersector bbox_intersect (flatten tree) build_prims
                ray occlusion
                (mkState (mkTraversal (Z.of_nat k) near :: rest) best)
           = Continue (mkState rest best)).
Proof.
  intros Hwf occlusion.
  destruct (well_formed_parts Hwf) as [Hsize [_ [Hprims Hranges]]].
  split.
  - destruct (run_returns_visit occlusion true Hwf) as [fuel Hrun].
    exists fuel. eexists. exact Hrun.
  - intros k b s near rest best Hloc Hnear. unfold step.
    rewrite (step_top intersector bbox_intersect build_prims tree ray
                      occlusion Hsize true k _ near rest best Hloc).
    rewrite Hnear. cbn [andb].
    rewrite visit_node_leaf;
      [|exact Hprims|eapply ranges_ok_located; [exact Hloc|exact Hranges]].
    unfold slice. reflexivity.
Qed.

(** C7 (no-hit correctness).  For a hierarchy that meets the builder's
    contract and whose boxes enclose the primitives below them (a ray
    that the intersector reports as hitting a primitive hits every box
    around it), a ray that misses the box of the root gets an invalid
    intersection from [traverse], in both modes. *)
Theorem miss_root_box_no_hit :
  well_formed build_prims tree = true ->
  encloses intersector bbox_intersect build_prims ray tree = true ->
  bbox_intersect (root_bbox tree) ray = None ->
  forall occlusion : bool,
  exists fuel r,
    traverse_fuel intersector bbox_intersect (flatten tree) build_prims
                  ray occlusion fuel = Returned r
    /\ valid r = false.
Proof.
  intros Hwf Henc Hmiss occlusion.
  assert (Hnone : forall h, In h (HITS tree) -> valid h = false).
  { intros h Hin.
    exact (box_ok_miss bbox_intersect ray _ _
                       (encloses_root intersector bbox_intersect
                                      build_prims ray tree Henc)
                       Hmiss h Hin). }
  destruct (run_returns_visit occlusion true Hwf) as [fuel Hrun].
  exists fuel. destruct occlusion.
  - pose proof (visit_occlusion intersector bbox_intersect build_prims
                                ray true tree root_mint Henc) as Hocc.
    destruct (VISIT true true tree root_mint no_hit) as [b|h].
    + destruct Hocc as [E _]. subst b.
      exists no_hit. split; [exact Hrun|reflexivity].
    + destruct Hocc as [Hin Hv]. rewrite (Hnone h Hin) in Hv. discriminate.
  - destruct (visit_nearest intersector bbox_intersect build_prims ray
                            true tree root_mint no_hit Henc eq_refl)
      as [b [Hv Hmin]].
    { change (t (@no_hit Payload)) with infinity.
      rewrite fgt_infinity. discriminate. }
    rewrite Hv in Hrun. exists b. split; [exact Hrun|].
    apply valid_false_iff.
    apply (min_t_invalid (t b) (HITS tree)); [exact Hmin|exact Hnone].
Qed.

End Traversal.

(** ** The working set *)

Section WorkingSet.

Context {Primitive Ray BBox Payload : Type}.
Variable intersector : Primitive -> Ray -> Intersection Payload.
Variable bbox_intersect : BBox -> Ray -> option (Float * Float).
Variable build_prims : list Primitive.
Variable tree : Tree BBox.
Variable ray : Ray.
Variable occlusion : bool.

Local Abbreviation STEP :=
  (step_with intersector bbox_intersect (flatten tree) build_prims ray
             occlusion).

Hypothesis size_fits : Z.of_nat (size tree) < 2 ^ 31.
Hypothesis depth_fits : (depth tree <= 64)%nat.

Lemma stack_ok_length (stack : list Traversal) :
  stack_ok tree stack -> (length stack <= depth tree)%nat.
Proof.
  destruct stack as [|e rest]; simpl.
  - lia.
  - intros [[k [sub [_ [_ Hlen]]]] _]. pose proof (depth_pos sub). lia.
Qed.

Lemma stack_ok_pushed (k : nat) b s n l r (rest : list Traversal) :
  located tree k (TInner b s n l r) ->
  (length rest + depth (TInner b s n l r) <= depth tree)%nat ->
  stack_ok tree rest ->
  stack_ok tree (pushed bbox_intersect ray k l r ++ rest).
Proof.
  intros Hloc Hlen Hrest.
  pose proof (located_left _ _ _ _ _ _ _ Hloc) as Hl.
  pose proof (located_right _ _ _ _ _ _ _ Hloc) as Hr.
  cbn [depth] in Hlen.
  assert (L : forall near below,
             (length below <= S (length rest))%nat ->
             stack_ok tree below ->
             stack_ok tree (mkTraversal (Z.of_nat (S k)) near :: below)).
  { intros near below Hb Hok. split; [|exact Hok].
    exists (S k), l. split; [reflexivity|]. split; [exact Hl|lia]. }
  assert (R : forall near below,
             (length below <= S (length rest))%nat ->
             stack_ok tree below ->
             stack_ok tree
                      (mkTraversal (Z.of_nat (S (k + size l))) near
                                   :: below)).
  { intros near below Hb Hok. split; [|exact Hok].
    exists (S (k + size l)), r.
    split; [reflexivity|]. split; [exact Hr|lia]. }
  unfold pushed.
  destruct (bbox_intersect (root_bbox l) ray) as [[n0 f0]|];
    destruct (bbox_intersect (root_bbox r) ray) as [[n1 f1]|];
    [destruct (flt n1 n0)| | |]; cbn [app].
  - apply R; [simpl length; lia|]. apply L; [lia|exact Hrest].
  - apply L; [simpl length; lia|]. apply R; [lia|exact Hrest].
  - apply L; [lia|exact Hrest].
  - apply R; [lia|exact Hrest].
  - exact Hrest.
Qed.

(** One iteration keeps the working set within the depth bound and never
    writes past the end of [todo]. *)
Lemma stack_ok_step (pruning : bool) (st : State Payload) :
  stack_ok tree (todo st) ->
  STEP pruning st <> Undefined StackOverflow
  /\ forall st', STEP pruning st = Continue st' -> stack_ok tree (todo st').
Proof.
  destruct st as [stack best]. destruct stack as [|[i m] rest];
    cbn [todo stack_ok].
  - intros _. split; [discriminate|]. intros st'. discriminate.
  - intros [[k [sub [Ei [Hloc Hlen]]]] Hrest]. cbn in Ei. subst i.
    rewrite (step_top intersector bbox_intersect build_prims tree ray
                      occlusion size_fits pruning k sub m rest best Hloc).
    destruct (pruning && fgt m (t best)).
    { split; [discriminate|]. intros st' E. inversion E. exact Hrest. }
    destruct sub as [b s n|b s n l r].
    + unfold visit_node. cbn [root_node rightOffset].
      change (0 =? 0) with true. cbv iota.
      destruct (scan_leaf intersector build_prims ray occlusion _ _ _ best).
      * split; [discriminate|]. intros st' E. inversion E. exact Hrest.
      * split; [discriminate|]. intros st'. discriminate.
      * split; [discriminate|]. intros st'. discriminate.
    + pose proof (depth_pos l). pose proof (depth_pos r).
      rewrite (visit_node_inner intersector bbox_intersect build_prims
                                tree ray occlusion size_fits k b s n l r
                                rest best Hloc)
        by (cbn [depth] in Hlen; lia).
      split; [discriminate|]. intros st' E. inversion E. cbn [todo].
      apply (stack_ok_pushed k b s n l r rest Hloc Hlen Hrest).
Qed.

Lemma reachable_stack_ok (pruning : bool) (st : State Payload) :
  reachable (STEP pruning) st -> stack_ok tree (todo st).
Proof.
  induction 1 as [|st st' Hreach IH Hstep].
  - cbn. split; [|exact I]. exists 0%nat, tree.
    split; [reflexivity|]. split; [apply loc_here|simpl; lia].
  - exact (proj2 (stack_ok_step pruning st IH) st' Hstep).
Qed.

Lemma run_reachable (pruning : bool) (fuel : nat) :
  forall st : State Payload,
    reachable (STEP pruning) st ->
    run (STEP pruning) fuel st <> Faulted StackOverflow.
Proof.
  induction fuel as [|fuel IH]; intros st Hreach; cbn [run].
  - discriminate.
  - pose proof (stack_ok_step pruning st
                              (reachable_stack_ok pruning st Hreach))
      as [Hno _].
    destruct (STEP pruning st) as [st'|r|f] eqn:E.
    + apply IH. eapply reach_step; [exact Hreach|exact E].
    + discriminate.
    + intros C. apply Hno. congruence.
Qed.

(** C4 (depth bound).  For a hierarchy whose depth, counted in nodes on
    the longest path from the root to a leaf, does not exceed the 64
    entries of [todo], every state that [traverse] passes through has
    [stackptr] between -1 and 63 (indeed below the depth), no iteration
    writes past [todo[63]], and so no run ends in a stack overflow. *)
Theorem stack_never_overflows :
  (forall st : State Payload,
      reachable (step intersector bbox_intersect (flatten tree)
                      build_prims ray occlusion) st ->
      -1 <= stackptr st <= 63
      /\ stackptr st < Z.of_nat (depth tree)
      /\ step intersector bbox_intersect (flatten tree) build_prims ray
              occlusion st <> Undefined StackOverflow)
  /\ (forall fuel,
         traverse_fuel intersector bbox_intersect (flatten tree)
                       build_prims ray occlusion fuel
         <> Faulted StackOverflow).
Proof.
  split.
  - intros st Hreach.
    pose proof (reachable_stack_ok true st Hreach) as Hok.
    pose proof (stack_ok_length _ Hok) as Hlen.
    unfold stackptr. repeat split; try lia.
    exact (proj1 (stack_ok_step true st Hok)).
  - intros fuel. apply (run_reachable true). apply reach_initial.
Qed.

End WorkingSet.

(** ** The loop on any node array *)

Lemma flt_irrefl (a : Float) : flt a a = false.
Proof. float_cases. Qed.

Section Loop.

Context {Primitive Ray BBox Payload : Type}.
Variable intersector : Primitive -> Ray -> Intersection Payload.
Variable bbox_intersect : BBox -> Ray -> option (Float * Float).
Variable flatTree : list (Node BBox).
Variable build_prims : list Primitive.
Variable ray : Ray.
Variable occlusion : bool.

Local Abbreviation STEP :=
  (step intersector bbox_intersect flatTree build_prims ray occlusion).
Local Abbreviation TRAVERSE :=
  (traverse_fuel intersector bbox_intersect flatTree build_prims ray
                 occlusion).

(** C6 (front-to-back order).  When the loop processes an internal node
    and the ray hits the boxes of both children, the iteration leaves the
    child with the smaller entry distance on top of the working set,
    pushed after the other one and so popped first; each child is pushed
    with the entry distance of its own box; on equal entry distances the
    left child, at [ni + 1], is the one on top. *)
Theorem closer_child_on_top
        (top : Traversal) (rest : list Traversal)
        (best : Intersection Payload) (node c0 c1 : Node BBox)
        (a0 a1 b0 b1 : Float) :
  let ni := to_int32 (TraverserImpl.i top) in
  let left := ni + 1 in
  let right := to_uint32 (ni + rightOffset node) in
  let left_entry := mkTraversal (to_uint32 (to_int32 left)) a0 in
  let right_entry := mkTraversal (to_uint32 (to_int32 right)) b0 in
  node_at flatTree ni = Some node ->
  rightOffset node <> 0 ->
  fgt (TraverserImpl.mint top) (t best) = false ->
  node_at flatTree left = Some c0 ->
  node_at flatTree right = Some c1 ->
  bbox_intersect (bbox c0) ray = Some (a0, a1) ->
  bbox_intersect (bbox c1) ray = Some (b0, b1) ->
  (length rest + 2 <= 64)%nat ->
  STEP (mkState (top :: rest) best) =
    Continue (mkState (if flt b0 a0
                       then right_entry :: left_entry :: rest
                       else left_entry :: right_entry :: rest) best)
  /\ (b0 = a0 ->
      STEP (mkState (top :: rest) best) =
        Continue (mkState (left_entry :: right_entry :: rest) best)).
Proof.
  intros ni left right left_entry right_entry
         Hnode Hinner Hnear Hc0 Hc1 Hb0 Hb1 Hlen.
  assert (E : STEP (mkState (top :: rest) best) =
              Continue (mkState (if flt b0 a0
                                 then right_entry :: left_entry :: rest
                                 else left_entry :: right_entry :: rest)
                                best)).
  { unfold step, step_with. cbn [todo intersection].
    fold ni. rewrite Hnode, Hnear. cbn [andb].
    unfold visit_node.
    destruct (Z.eqb_spec (rightOffset node) 0) as [C|_];
      [contradiction|].
    fold left. fold right. cbv zeta. rewrite Hc0, Hc1, Hb0, Hb1.
    assert (P1 : forall e, push e rest = Some (e :: rest)).
    { intros e. unfold push, todo_capacity.
      destruct (Z.ltb_spec (Z.of_nat (length rest)) 64);
        [reflexivity|lia]. }
    assert (P2 : forall e e', push e (e' :: rest) = Some (e :: e' :: rest)).
    { intros e e'. unfold push, todo_capacity. simpl length.
      destruct (Z.ltb_spec (Z.of_nat (S (length rest))) 64);
        [reflexivity|lia]. }
    destruct (flt b0 a0); unfold push2; rewrite P1, P2; reflexivity. }
  split; [exact E|].
  intros Eq. rewrite E. subst b0. rewrite flt_irrefl. reflexivity.
Qed.

End Loop.

(** ** Calls on a shared BVH *)

Section SharedBVH.

Context {Primitive Ray BBox Payload : Type}.
Variable intersector : Primitive -> Ray -> Intersection Payload.
Variable bbox_intersect : BBox -> Ray -> option (Float * Float).

Implicit Types (bvh : BVH Primitive BBox) (c : Call Ray Payload).

Local Abbreviation STEP_OF bvh :=
  (step intersector bbox_intersect (getNodes bvh) (getPrimitives bvh)).
Local Abbreviation STEP_MEM := (step_mem intersector bbox_intersect).
Local Abbreviation ITERATE := (iterate intersector bbox_intersect).
Local Abbreviation SOLO := (solo intersector bbox_intersect).
Local Abbreviation INTERLEAVE := (interleave intersector bbox_intersect).

Lemma scan_leaf_mem_reads (ray : Ray) (occlusion : bool) (node : Node BBox)
      (count : nat) :
  forall (o : Z) (best : Intersection Payload) bvh,
    scan_leaf_mem intersector ray occlusion node count o best bvh =
    (bvh,
     match scan_leaf intersector (getPrimitives bvh) ray occlusion node
                     count o best with
     | LeafDone b => Value b
     | LeafHit current => Leave current
     | LeafFault => Fail PrimOutOfRange
     end).
Proof.
  induction count as [|count IH]; intros o best bvh;
    cbn [scan_leaf_mem scan_leaf].
  - reflexivity.
  - unfold bind_mem, load_prim.
    destruct (prim_at (getPrimitives bvh) (to_uint32 (start node + o)))
      as [obj|]; [|reflexivity].
    destruct (valid (intersector obj ray)).
    + destruct occlusion; [reflexivity|apply IH].
    + apply IH.
Qed.

Lemma visit_node_mem_reads (ray : Ray) (occlusion : bool) (ni : Z)
      (node : Node BBox) (rest : list Traversal)
      (best : Intersection Payload) bvh :
  visit_node_mem intersector bbox_intersect ray occlusion ni node rest best
                 bvh =
  (bvh,
   match visit_node intersector bbox_intersect (getNodes bvh)
                    (getPrimitives bvh) ray occlusion ni node rest best with
   | Continue st' => Value st'
   | Return r => Leave r
   | Undefined f => Fail f
   end).
Proof.
  unfold visit_node_mem, visit_node.
  destruct (rightOffset node =? 0).
  - unfold bind_mem. rewrite scan_leaf_mem_reads.
    destruct (scan_leaf intersector (getPrimitives bvh) ray occlusion node
                        (Z.to_nat (nPrims node)) 0 best); reflexivity.
  - cbv zeta. unfold bind_mem, load_node.
    destruct (node_at (getNodes bvh) (ni + 1)) as [n0|]; [|reflexivity].
    destruct (node_at (getNodes bvh) (to_uint32 (ni + rightOffset node)))
      as [n1|]; [|reflexivity].
    destruct (bbox_intersect (bbox n0) ray) as [[bb0 bb1]|];
      destruct (bbox_intersect (bbox n1) ray) as [[bb2 bb3]|];
      [destruct (flt bb2 bb0)| | |];
      unfold push_mem, push2, push1, push, unit_mem, fail;
      repeat match goal with
             | |- context [if ?c then _ else _] => destruct c
             end;
      reflexivity.
Qed.

Lemma step_mem_reads (ray : Ray) (occlusion : bool) (st : State Payload)
      bvh :
  STEP_MEM ray occlusion st bvh =
  (bvh,
   match STEP_OF bvh ray occlusion st with
   | Continue st' => Value st'
   | Return r => Leave r
   | Undefined f => Fail f
   end).
Proof.
  unfold step_mem, step, step_with.
  destruct (todo st) as [|top rest]; [reflexivity|].
  cbv zeta. unfold bind_mem, load_node.
  destruct (node_at (getNodes bvh) (to_int32 (TraverserImpl.i top)))
    as [node|]; [|reflexivity].
  cbn [andb].
  destruct (fgt (TraverserImpl.mint top) (t (intersection st)));
    [reflexivity|].
  apply visit_node_mem_reads.
Qed.

Lemma iterate_reads c bvh : fst (ITERATE c bvh) = bvh.
Proof.
  destruct c as [ray occlusion st|r|f]; [|reflexivity|reflexivity].
  unfold iterate. rewrite step_mem_reads.
  destruct (STEP_OF bvh ray occlusion st); reflexivity.
Qed.

Lemma solo_reads (n : nat) : forall c bvh, fst (SOLO n c bvh) = bvh.
Proof.
  induction n as [|n IH]; intros c bvh; cbn [solo].
  - reflexivity.
  - pose proof (iterate_reads c bvh) as H.
    destruct (ITERATE c bvh) as [bvh' c']. cbn [fst] in H. subst bvh'.
    apply IH.
Qed.

Lemma interleave_solo (schedule : list bool) :
  forall c1 c2 bvh,
    INTERLEAVE schedule c1 c2 bvh =
    (bvh, snd (SOLO (turns true schedule) c1 bvh),
     snd (SOLO (turns false schedule) c2 bvh)).
Proof.
  induction schedule as [|who schedule IH]; intros c1 c2 bvh.
  - reflexivity.
  - destruct who; cbn [interleave]; unfold turns; cbn [filter Bool.eqb];
      cbn [length solo]; fold (turns true schedule);
        fold (turns false schedule).
    + pose proof (iterate_reads c1 bvh) as H.
      destruct (ITERATE c1 bvh) as [bvh' c1']. cbn [fst] in H. subst bvh'.
      apply IH.
    + pose proof (iterate_reads c2 bvh) as H.
      destruct (ITERATE c2 bvh) as [bvh' c2']. cbn [fst] in H. subst bvh'.
      apply IH.
Qed.

Lemma solo_over (n : nat) :
  forall c bvh,
    (forall ray occlusion st, c <> Running ray occlusion st) ->
    SOLO n c bvh = (bvh, c).
Proof.
  induction n as [|n IH]; intros c bvh Hover; cbn [solo].
  - reflexivity.
  - destruct c as [ray occlusion st|r|f].
    + exfalso. apply (Hover ray occlusion st). reflexivity.
    + cbn [iterate]. apply IH. exact Hover.
    + cbn [iterate]. apply IH. exact Hover.
Qed.

Lemma solo_run (ray : Ray) (occlusion : bool) bvh
      (r : Intersection Payload) (n : nat) :
  forall st,
    run (STEP_OF bvh ray occlusion) n st = Returned r <->
    snd (SOLO n (Running ray occlusion st) bvh) = Returning r.
Proof.
  induction n as [|n IH]; intros st; cbn [run solo].
  - split; discriminate.
  - unfold iterate. rewrite step_mem_reads.
    destruct (STEP_OF bvh ray occlusion st) as [st'|r'|f].
    + apply IH.
    + rewrite solo_over by (intros; discriminate). cbn [snd].
      split; intros E; inversion E; reflexivity.
    + rewrite solo_over by (intros; discriminate). cbn [snd].
      split; discriminate.
Qed.

(** C8 (idempotence, no mutation).  The loop written against the memory
    of the BVH only loads from it: each iteration hands the node array and
    the primitive array on as it received them, and does to the locals
    what [step] does.  So no number of iterations of any call changes the
    BVH; two calls advanced in any interleaving each end up where they
    would have on their own; two calls with the same ray and the same mode
    that have both returned, under whatever interleaving, have returned
    the same intersection with the BVH unchanged; and a call returns [r]
    within [n] iterations exactly when [traverse_fuel] does. *)
Theorem calls_leave_the_bvh_alone bvh :
  (forall ray occlusion st,
      STEP_MEM ray occlusion st bvh =
      (bvh,
       match STEP_OF bvh ray occlusion st with
       | Continue st' => Value st'
       | Return r => Leave r
       | Undefined f => Fail f
       end))
  /\ (forall n c, fst (SOLO n c bvh) = bvh)
  /\ (forall schedule c1 c2,
         INTERLEAVE schedule c1 c2 bvh =
         (bvh, snd (SOLO (turns true schedule) c1 bvh),
          snd (SOLO (turns false schedule) c2 bvh)))
  /\ (forall schedule ray occlusion bvh' r1 r2,
         INTERLEAVE schedule (enter ray occlusion) (enter ray occlusion) bvh
         = (bvh', Returning r1, Returning r2) ->
         bvh' = bvh /\ r1 = r2)
  /\ (forall ray occlusion n r,
         traverse_fuel intersector bbox_intersect (getNodes bvh)
                       (getPrimitives bvh) ray occlusion n = Returned r <->
         snd (SOLO n (enter ray occlusion) bvh) = Returning r).
Proof.
  split; [intros; apply step_mem_reads|].
  split; [intros; apply solo_reads|].
  split; [intros; apply interleave_solo|].
  split.
  - intros schedule ray occlusion bvh' r1 r2 H.
    rewrite interleave_solo in H. inversion H as [[Hb H1 H2]].
    split; [reflexivity|].
    apply (solo_run ray occlusion bvh' r1) in H1.
    apply (solo_run ray occlusion bvh' r2) in H2.
    assert (E : run (STEP_OF bvh' ray occlusion) (turns true schedule)
                    initial
                = run (STEP_OF bvh' ray occlusion) (turns false schedule)
                      initial).
    { apply run_agree; congruence. }
    rewrite H1, H2 in E. inversion E. reflexivity.
  - intros ray occlusion n r. apply solo_run.
Qed.

End SharedBVH.

(** C9 (the root is not box tested).  The loop starts from the root pushed
    with the sentinel [-9999999] and runs the body on it at once, without
    a prune.  The only boxes handed to the box test are those of the two
    children of an internal node: two box tests that agree on the boxes of
    the children of internal nodes, whatever each says about any other box
    and so about the box of the root, give the same outcome of [traverse]
    for every number of iterations; and when the root is a leaf the
    outcome is the scan of the root's primitives with the intersector. *)
Theorem root_is_never_box_tested
        (Primitive Ray BBox Payload : Type)
        (intersector : Primitive -> Ray -> Intersection Payload)
        (box1 box2 : BBox -> Ray -> option (Float * Float))
        (flatTree : list (Node BBox)) (build_prims : list Primitive)
        (ray : Ray) (occlusion : bool) :
  (forall ni node child,
      node_at flatTree ni = Some node ->
      rightOffset node <> 0 ->
      node_at flatTree (ni + 1) = Some child
      \/ node_at flatTree (to_uint32 (ni + rightOffset node)) = Some child ->
      box1 (bbox child) ray = box2 (bbox child) ray) ->
  todo (initial (Payload := Payload)) = [mkTraversal 0 (FFin (-9999999))]
  /\ (forall fuel,
         traverse_fuel intersector box1 flatTree build_prims ray occlusion
                       fuel
         = traverse_fuel intersector box2 flatTree build_prims ray occlusion
                         fuel)
  /\ (forall root,
         node_at flatTree 0 = Some root ->
         step intersector box1 flatTree build_prims ray occlusion initial
         = visit_node intersector box1 flatTree build_prims ray occlusion
                      0 root [] no_hit
         /\ (rightOffset root = 0 ->
             traverse_fuel intersector box1 flatTree build_prims ray
                           occlusion 2
             = match scan_leaf intersector build_prims ray occlusion root
                               (Z.to_nat (nPrims root)) 0 no_hit with
               | LeafDone b => Returned b
               | LeafHit current => Returned current
               | LeafFault => Faulted PrimOutOfRange
               end)).
Proof.
  intros Hagree. split; [reflexivity|]. split.
  - assert (V : forall ni node rest best,
               node_at flatTree ni = Some node ->
               visit_node intersector box1 flatTree build_prims ray
                          occlusion ni node rest best =
               visit_node intersector box2 flatTree build_prims ray
                          occlusion ni node rest best).
    { intros ni node rest best Hnode. unfold visit_node.
      destruct (Z.eqb_spec (rightOffset node) 0) as [|Hinner];
        [reflexivity|].
      cbv zeta.
      destruct (node_at flatTree (ni + 1)) as [n0|] eqn:E0; [|reflexivity].
      destruct (node_at flatTree (to_uint32 (ni + rightOffset node)))
        as [n1|] eqn:E1; [|reflexivity].
      rewrite (Hagree ni node n0 Hnode Hinner (or_introl E0)).
      rewrite (Hagree ni node n1 Hnode Hinner (or_intror E1)).
      reflexivity. }
    assert (S : forall st,
               step intersector box1 flatTree build_prims ray occlusion st =
               step intersector box2 flatTree build_prims ray occlusion st).
    { intros st. unfold step, step_with.
      destruct (todo st) as [|top rest]; [reflexivity|].
      destruct (node_at flatTree (to_int32 (TraverserImpl.i top)))
        as [node|] eqn:Hnode; [|reflexivity].
      rewrite (V _ _ _ _ Hnode). reflexivity. }
    intros fuel. unfold traverse_fuel. generalize (@initial Payload).
    induction fuel as [|fuel IH]; intros st; cbn [run].
    + reflexivity.
    + rewrite S.
      destruct (step intersector box2 flatTree build_prims ray occlusion st);
        [apply IH|reflexivity|reflexivity].
  - intros root Hroot.
    assert (E : step intersector box1 flatTree build_prims ray occlusion
                     initial
                = visit_node intersector box1 flatTree build_prims ray
                             occlusion 0 root [] no_hit).
    { unfold step, step_with, initial. cbn [todo intersection].
      change (to_int32 (TraverserImpl.i (mkTraversal 0 root_mint))) with 0.
      rewrite Hroot. reflexivity. }
    split; [exact E|].
    intros Hleaf. unfold traverse_fuel. cbn [run]. rewrite E.
    unfold visit_node. rewrite Hleaf. cbn [Z.eqb].
    destruct (scan_leaf intersector build_prims ray occlusion root
                        (Z.to_nat (nPrims root)) 0 no_hit); reflexivity.
Qed.

(** C10 (exit distances).  Two box tests that agree on which boxes the ray
    hits and on the entry distances, and differ in any way on the exit
    distances, give the same outcome of [traverse] for every number of
    iterations: the exit distances are carried along and swapped but decide
    nothing. *)
Theorem exit_distances_are_irrelevant
        (Primitive Ray BBox Payload : Type)
        (intersector : Primitive -> Ray -> Intersection Payload)
        (box1 box2 : BBox -> Ray -> option (Float * Float))
        (flatTree : list (Node BBox)) (build_prims : list Primitive)
        (ray : Ray) (occlusion : bool) :
  (forall b, option_map fst (box1 b ray) = option_map fst (box2 b ray)) ->
  forall fuel,
    traverse_fuel intersector box1 flatTree build_prims ray occlusion fuel =
    traverse_fuel intersector box2 flatTree build_prims ray occlusion fuel.
Proof.
  intros Hagree.
  assert (V : forall ni node rest best,
             visit_node intersector box1 flatTree build_prims ray occlusion
                        ni node rest best =
             visit_node intersector box2 flatTree build_prims ray occlusion
                        ni node rest best).
  { intros ni node rest best. unfold visit_node.
    destruct (rightOffset node =? 0); [reflexivity|].
    destruct (node_at flatTree (ni + 1)) as [n0|]; [|reflexivity].
    destruct (node_at flatTree (to_uint32 (ni + rightOffset node)))
      as [n1|]; [|reflexivity].
    pose proof (Hagree (bbox n0)) as H0. pose proof (Hagree (bbox n1)) as H1.
    destruct (box1 (bbox n0) ray) as [[x0 y0]|];
      destruct (box2 (bbox n0) ray) as [[x0' y0']|];
      cbn in H0; try discriminate;
      destruct (box1 (bbox n1) ray) as [[x1 y1]|];
      destruct (box2 (bbox n1) ray) as [[x1' y1']|];
      cbn in H1; try discriminate;
      repeat match goal with
             | H : Some _ = Some _ |- _ => inversion H; clear H; subst
             end;
      try reflexivity.
    destruct (flt x1' x0'); reflexivity. }
  assert (S : forall st,
             step intersector box1 flatTree build_prims ray occlusion st =
             step intersector box2 flatTree build_prims ray occlusion st).
  { intros st. unfold step, step_with.
    destruct (todo st) as [|top rest]; [reflexivity|].
    destruct (node_at flatTree (to_int32 (TraverserImpl.i top)));
      [|reflexivity].
    rewrite V. reflexivity. }
  intros fuel. unfold traverse_fuel. generalize (@initial Payload).
  induction fuel as [|fuel IH]; intros st; cbn [run].
  - reflexivity.
  - rewrite S.
    destruct (step intersector box2 flatTree build_prims ray occlusion st);
      [apply IH|reflexivity|reflexivity].
Qed.

(** ** The properties on the concrete scene *)

Lemma nearest_hit_scene :
  well_formed Scene.points Scene.hierarchy = true
  /\ covers Scene.points Scene.hierarchy = true
  /\ encloses Scene.hit_point Scene.hit_interval Scene.points 3
              Scene.hierarchy = true
  /\ exists fuel r,
      traverse_fuel Scene.hit_point Scene.hit_interval
                    (flatten Scene.hierarchy) Scene.points 3 false fuel
      = Returned r
      /\ t r = t (brute_force Scene.hit_point Scene.points 3)
      /\ (valid r = false <->
          forall obj, In obj Scene.points ->
                      valid (Scene.hit_point obj 3) = false).
Proof.
  split; [reflexivity|]. split; [reflexivity|]. split; [reflexivity|].
  apply (nearest_hit_matches_brute_force
           Scene.hit_point Scene.hit_interval Scene.points Scene.hierarchy 3);
    reflexivity.
Defined.

Lemma occlusion_scene :
  (exists fuel r,
      traverse_fuel Scene.hit_point Scene.hit_interval
                    (flatten Scene.hierarchy) Scene.points 3 true fuel
      = Returned r
      /\ (valid r = true <->
          exists obj, In obj Scene.points
                      /\ valid (Scene.hit_point obj 3) = true)
      /\ (valid r = true ->
          exists obj, In obj (tree_prims Scene.points Scene.hierarchy)
                      /\ r = Scene.hit_point obj 3))
  /\ (forall k b s n near rest h,
         located Scene.hierarchy k (TLeaf b s n) ->
         find valid (map (fun obj => Scene.hit_point obj 3)
                         (slice Scene.points s n)) = Some h ->
         step Scene.hit_point Scene.hit_interval (flatten Scene.hierarchy)
              Scene.points 3 true
              (mkState (TraverserImpl.mkTraversal (Z.of_nat k) near :: rest)
                       no_hit)
         = Return h).
Proof.
  apply (occlusion_sound
           Scene.hit_point Scene.hit_interval Scene.points Scene.hierarchy 3);
    reflexivity.
Defined.

Lemma pruning_scene :
  exists r,
    (exists fuel,
        traverse_fuel Scene.hit_point Scene.hit_interval
                      (flatten Scene.hierarchy) Scene.points 3 false fuel
        = Returned r)
    /\ (exists fuel,
           traverse_unpruned_fuel Scene.hit_point Scene.hit_interval
                                  (flatten Scene.hierarchy) Scene.points 3
                                  false fuel
           = Returned r).
Proof.
  apply (pruning_is_an_optimization
           Scene.hit_point Scene.hit_interval Scene.points Scene.hierarchy 3);
    reflexivity.
Defined.

Lemma stack_bound_scene :
  Z.of_nat (size Scene.hierarchy) < 2 ^ 31
  /\ (depth Scene.hierarchy <= 64)%nat
  /\ forall fuel,
      traverse_fuel Scene.hit_point Scene.hit_interval
                    (flatten Scene.hierarchy) Scene.points 3 false fuel
      <> Faulted StackOverflow.
Proof.
  assert (Hs : Z.of_nat (size Scene.hierarchy) < 2 ^ 31) by reflexivity.
  assert (Hd : (depth Scene.hierarchy <= 64)%nat) by (simpl; lia).
  split; [exact Hs|]. split; [exact Hd|].
  exact (proj2 (stack_never_overflows
                  Scene.hit_point Scene.hit_interval Scene.points
                  Scene.hierarchy 3 false Hs Hd)).
Defined.

Lemma termination_scene :
  exists fuel r,
    traverse_fuel Scene.hit_point Scene.hit_interval
                  (flatten Scene.hierarchy) Scene.points 3 true fuel
    = Returned r.
Proof.
  apply (traverse_terminates
           Scene.hit_point Scene.hit_interval Scene.points Scene.hierarchy 3).
  reflexivity.
Defined.

Lemma front_to_back_scene :
  step Scene.hit_point Scene.hit_interval (flatten Scene.hierarchy)
       Scene.points 3 false initial
  = Continue
      (mkState [TraverserImpl.mkTraversal 1 (FFin (-1));
                TraverserImpl.mkTraversal 2 (FFin 6)] no_hit).
Proof.
  refine (proj1 (closer_child_on_top
                   Scene.hit_point Scene.hit_interval
                   (flatten Scene.hierarchy) Scene.points 3 false
                   (TraverserImpl.mkTraversal 0 root_mint) [] no_hit
                   (mkNode (2, 12) 0 4 2) (mkNode (2, 5) 0 2 0)
                   (mkNode (9, 12) 2 2 2)
                   (FFin (-1)) (FFin 2) (FFin 6) (FFin 9)
                   _ _ _ _ _ _ _ _));
    try reflexivity.
  - discriminate.
  - simpl. lia.
Defined.

Lemma miss_root_scene :
  Scene.hit_interval (root_bbox Scene.hierarchy) 13 = None
  /\ forall occlusion : bool,
      exists fuel r,
        traverse_fuel Scene.hit_point Scene.hit_interval
                      (flatten Scene.hierarchy) Scene.points 13 occlusion fuel
        = Returned r
        /\ valid r = false.
Proof.
  split; [reflexivity|].
  apply (miss_root_box_no_hit
           Scene.hit_point Scene.hit_interval Scene.points Scene.hierarchy 13);
    reflexivity.
Defined.

(** Two calls with the same ray, interleaved: both return the hit at
    distance 2 and leave the BVH as it was. *)
Lemma shared_calls_scene :
  interleave Scene.hit_point Scene.hit_interval
             [true; false; false; true; true; false; true; false]
             (enter 3 false) (enter 3 false)
             (mkBVH (flatten Scene.hierarchy) Scene.points)
  = (mkBVH (flatten Scene.hierarchy) Scene.points,
     Returning (mkIntersection (FFin 2) (Some 5)),
     Returning (mkIntersection (FFin 2) (Some 5))).
Proof.
  rewrite (proj1 (proj2 (proj2 (calls_leave_the_bvh_alone
                                  Scene.hit_point Scene.hit_interval
                                  (mkBVH (flatten Scene.hierarchy)
                                         Scene.points))))).
  reflexivity.
Defined.

(** A box test that reports a miss for the box of the root, and only for
    it: the hit is returned all the same. *)
Lemma root_box_miss_scene :
  Scene.hit_interval_but_2_12 (root_bbox Scene.hierarchy) 3 = None
  /\ traverse_fuel Scene.hit_point Scene.hit_interval
                   (flatten Scene.hierarchy) Scene.points 3 false 20
     = traverse_fuel Scene.hit_point Scene.hit_interval_but_2_12
                     (flatten Scene.hierarchy) Scene.points 3 false 20
  /\ traverse_fuel Scene.hit_point Scene.hit_interval_but_2_12
                   (flatten Scene.hierarchy) Scene.points 3 false 20
     = Returned (mkIntersection (FFin 2) (Some 5)).
Proof.
  split; [reflexivity|]. split; [|reflexivity].
  apply (root_is_never_box_tested
           Z Z (Z * Z)%type Z
           Scene.hit_point Scene.hit_interval Scene.hit_interval_but_2_12
           (flatten Scene.hierarchy) Scene.points 3 false).
  intros ni node child Hnode Hinner Hchild.
  unfold node_at in Hnode.
  destruct (Z.ltb_spec ni 0) as [|Hpos]; [discriminate|].
  destruct (Z.to_nat ni) as [|[|[|[|[|k]]]]] eqn:E; cbn in Hnode;
    try (destruct k; discriminate);
    inversion Hnode; subst node; cbn in Hinner; try contradiction.
  - assert (ni = 0) by lia. subst ni.
    destruct Hchild as [H|H]; vm_compute in H; inversion H; reflexivity.
  - assert (ni = 2) by lia. subst ni.
    destruct Hchild as [H|H]; vm_compute in H; inversion H; reflexivity.
Defined.

Lemma exit_distances_scene :
  traverse_fuel Scene.hit_point Scene.hit_interval
                (flatten Scene.hierarchy) Scene.points 3 false 20
  = traverse_fuel Scene.hit_point Scene.hit_interval_entry_only
                  (flatten Scene.hierarchy) Scene.points 3 false 20.
Proof.
  apply (exit_distances_are_irrelevant
           Z Z (Z * Z)%type Z
           Scene.hit_point Scene.hit_interval Scene.hit_interval_entry_only
           (flatten Scene.hierarchy) Scene.points 3 false).
  intros [lo hi].
  unfold Scene.hit_interval, Scene.hit_interval_entry_only. cbn [snd fst].
  destruct (hi <? 3); reflexivity.
Defined.

(** A hierarchy with 65 levels, each box hit by the ray: the working set
    overflows, and no number of iterations makes [traverse] return. *)
Lemma deep_chain_overflows :
  depth (Scene.chain 64) = 65%nat
  /\ Z.of_nat (size (Scene.chain 64)) < 2 ^ 31
  /\ ranges_ok (@nil Z) (Scene.chain 64) = true
  /\ traverse_fuel Scene.hit_point Scene.hit_interval
                   (flatten (Scene.chain 64)) [] 0 false 100
     = Faulted StackOverflow
  /\ ~ exists fuel r,
        traverse_fuel Scene.hit_point Scene.hit_interval
                      (flatten (Scene.chain 64)) [] 0 false fuel
        = Returned r.
Proof.
  assert (F : traverse_fuel Scene.hit_point Scene.hit_interval
                            (flatten (Scene.chain 64)) [] 0 false 100
              = Faulted StackOverflow) by (vm_compute; reflexivity).
  split; [reflexivity|]. split; [reflexivity|]. split; [reflexivity|].
  split; [exact F|].
  intros [fuel [r H]]. unfold traverse_fuel in *.
  assert (E : run (step Scene.hit_point Scene.hit_interval
                        (flatten (Scene.chain 64)) [] 0 false) fuel initial
              = run (step Scene.hit_point Scene.hit_interval
                          (flatten (Scene.chain 64)) [] 0 false) 100 initial).
  { apply run_agree; congruence. }
  rewrite H, F in E. discriminate.
Qed.

(** ** Boundary cases on the concrete scene *)

(** A hierarchy with exactly 64 levels is walked to the end. *)
Example chain_of_64_levels_returns :
  depth (Scene.chain 63) = 64%nat
  /\ traverse_fuel Scene.hit_point Scene.hit_interval
                   (flatten (Scene.chain 63)) [] 0 false 128
     = Returned no_hit.
Proof. split; vm_compute; reflexivity. Qed.

(** Occlusion mode returns the first valid hit of a leaf, here the farther
    of the two, where nearest mode returns the nearer. *)
Example occlusion_first_not_nearest :
  traverse_fuel Scene.hit_point Scene.hit_interval
                (flatten Scene.unsorted_leaf) Scene.unsorted_points 0 true 2
  = Returned (mkIntersection (FFin 9) (Some 9))
  /\ traverse_fuel Scene.hit_point Scene.hit_interval
                   (flatten Scene.unsorted_leaf) Scene.unsorted_points 0
                   false 2
     = Returned (mkIntersection (FFin 5) (Some 5)).
Proof. split; reflexivity. Qed.

(** With the right child nearer, the right child is on top. *)
Example right_child_first :
  step Scene.hit_point Scene.hit_interval
       [mkNode (2, 12) 0 2 2; mkNode (9, 12) 0 1 0; mkNode (2, 5) 1 1 0]
       [12; 5] 0 false initial
  = Continue
      (mkState [TraverserImpl.mkTraversal 2 (FFin 2);
                TraverserImpl.mkTraversal 1 (FFin 9)] no_hit).
Proof. reflexivity. Qed.

(** * Further properties of the loop *)

(** ** The index kept in a working-set entry *)

(** X1.  A node index that fits an [int] goes through the [uint32_t]
    member of a working-set entry and comes back unchanged when the loop
    reads it into [ni]. *)
Theorem index_round_trip (z : Z) (m : Float) :
  - 2 ^ 31 <= z < 2 ^ 31 ->
  read_index (Traversal_init z m) = z
  /\ TraverserImpl.mint (Traversal_init z m) = m.
Proof.
  intros H. split; [|reflexivity].
  unfold read_index, Traversal_init, to_int32, to_uint32. cbn [TraverserImpl.i].
  change (2 ^ 31) with 2147483648 in *. change (2 ^ 32) with 4294967296.
  rewrite Zplus_mod_idemp_l.
  rewrite Z.mod_small; lia.
Qed.

Lemma index_round_trip_scene :
  read_index (Traversal_init (-5) root_mint) = -5
  /\ TraverserImpl.mint (Traversal_init (-5) root_mint) = root_mint.
Proof.
  apply (index_round_trip (-5) root_mint). split; [discriminate|reflexivity].
Defined.

(** ** One iteration on any node array *)

Section Iteration.

Context {Primitive Ray BBox Payload : Type}.
Variable intersector : Primitive -> Ray -> Intersection Payload.
Variable bbox_intersect : BBox -> Ray -> option (Float * Float).
Variable flatTree : list (Node BBox).
Variable build_prims : list Primitive.
Variable ray : Ray.

Local Abbreviation STEP :=
  (step_with intersector bbox_intersect flatTree build_prims ray).
Local Abbreviation SCAN_LEAF :=
  (@scan_leaf _ _ BBox _ intersector build_prims ray).

Implicit Types (st : State Payload) (best r : Intersection Payload).

(** What an iteration does to the running best is what the scan of one
    leaf does to it: a property [P] of the best that every leaf scan keeps,
    and a property [Q] of what a leaf scan or the end of the loop returns,
    hold along the whole run. *)
Lemma step_best (P Q : Intersection Payload -> Prop)
      (occlusion pruning : bool) :
  (forall best, P best -> Q best) ->
  (forall node count o best,
      P best ->
      match SCAN_LEAF occlusion node count o best with
      | LeafDone b => P b
      | LeafHit current => Q current
      | LeafFault => True
      end) ->
  forall st,
    P (intersection st) ->
    match STEP occlusion pruning st with
    | Continue st' => P (intersection st')
    | Return r => Q r
    | Undefined _ => True
    end.
Proof.
  intros HPQ Hscan st HP. unfold step_with.
  destruct (todo st) as [|top rest]; [apply HPQ; exact HP|].
  destruct (node_at flatTree (to_int32 (TraverserImpl.i top))) as [node|];
    [|exact I].
  destruct (pruning && fgt (TraverserImpl.mint top) (t (intersection st)));
    [exact HP|].
  unfold visit_node.
  destruct (rightOffset node =? 0).
  - specialize (Hscan node (Z.to_nat (nPrims node)) 0 (intersection st) HP).
    destruct (SCAN_LEAF occlusion node (Z.to_nat (nPrims node)) 0
                        (intersection st)); assumption.
  - cbv zeta.
    destruct (node_at flatTree (to_int32 (TraverserImpl.i top) + 1));
      [|exact I].
    destruct (node_at flatTree
                      (to_uint32 (to_int32 (TraverserImpl.i top)
                                  + rightOffset node))); [|exact I].
    destruct (bbox_intersect (bbox n) ray) as [[bb0 bb1]|];
      destruct (bbox_intersect (bbox n0) ray) as [[bb2 bb3]|];
      [destruct (flt bb2 bb0)| | |];
      unfold push2, push1, push;
      repeat match goal with
             | |- context [if ?c then _ else _] => destruct c
             end;
      cbn [intersection]; first [exact HP|exact I].
Qed.

Lemma run_best (P Q : Intersection Payload -> Prop)
      (occlusion pruning : bool) :
  (forall best, P best -> Q best) ->
  (forall node count o best,
      P best ->
      match SCAN_LEAF occlusion node count o best with
      | LeafDone b => P b
      | LeafHit current => Q current
      | LeafFault => True
      end) ->
  forall fuel st r,
    P (intersection st) ->
    run (STEP occlusion pruning) fuel st = Returned r -> Q r.
Proof.
  intros HPQ Hscan. induction fuel as [|fuel IH]; intros st r HP Hrun.
  - discriminate.
  - cbn [run] in Hrun.
    pose proof (step_best P Q occlusion pruning HPQ Hscan st HP) as Hstep.
    destruct (STEP occlusion pruning st) as [st'|r'|f].
    + exact (IH st' r Hstep Hrun).
    + inversion Hrun. subst r'. exact Hstep.
    + discriminate.
Qed.

(** *** Provenance *)

Lemma scan_leaf_reported (occlusion : bool) (node : Node BBox)
      (count : nat) :
  forall (o : Z) best,
    reported intersector build_prims ray best ->
    match SCAN_LEAF occlusion node count o best with
    | LeafDone b => reported intersector build_prims ray b
    | LeafHit current => reported intersector build_prims ray current
    | LeafFault => True
    end.
Proof.
  induction count as [|count IH]; intros o best Hbest; cbn [scan_leaf].
  - exact Hbest.
  - unfold prim_at.
    destruct (to_uint32 (start node + o) <? 0); [exact I|].
    destruct (nth_error build_prims (Z.to_nat (to_uint32 (start node + o))))
      as [obj|] eqn:Hobj; [|exact I].
    apply nth_error_In in Hobj.
    assert (Hcur : valid (intersector obj ray) = true ->
                   reported intersector build_prims ray
                            (intersector obj ray)).
    { intros Hv. right. exists obj. repeat split; assumption. }
    destruct (valid (intersector obj ray)) eqn:Hv.
    + destruct occlusion; [exact (Hcur eq_refl)|].
      apply IH. unfold closest.
      destruct (flt (t best) (t (intersector obj ray)));
        [exact Hbest|exact (Hcur eq_refl)].
    + apply IH. exact Hbest.
Qed.

(** X2.  Whatever the node array, the mode and the number of iterations,
    an intersection that [traverse] returns is either the
    default-constructed one or a valid intersection that the intersector
    gave for a primitive of the primitive array: the loop never makes up a
    hit. *)
Theorem result_is_reported (occlusion : bool) (fuel : nat) r :
  traverse_fuel intersector bbox_intersect flatTree build_prims ray
                occlusion fuel = Returned r ->
  reported intersector build_prims ray r.
Proof.
  unfold traverse_fuel, step. intros Hrun.
  apply (run_best (reported intersector build_prims ray)
                  (reported intersector build_prims ray)
                  occlusion true (fun _ H => H)
                  (scan_leaf_reported occlusion)
                  fuel initial r).
  - left. reflexivity.
  - exact Hrun.
Qed.

(** *** Occlusion mode *)

Lemma scan_leaf_occlusion_keeps (node : Node BBox) (count : nat) :
  forall (o : Z) best,
    best = no_hit ->
    match SCAN_LEAF true node count o best with
    | LeafDone b => b = no_hit
    | LeafHit current => True
    | LeafFault => True
    end.
Proof.
  induction count as [|count IH]; intros o best Hbest; cbn [scan_leaf].
  - exact Hbest.
  - destruct (prim_at build_prims (to_uint32 (start node + o))) as [obj|];
      [|exact I].
    destruct (valid (intersector obj ray)); [exact I|].
    apply IH. exact Hbest.
Qed.

Lemma step_unpruned_at_no_hit (occlusion : bool) st :
  intersection st = no_hit ->
  STEP occlusion true st = STEP occlusion false st.
Proof.
  intros Hbest. unfold step_with.
  destruct (todo st) as [|top rest]; [reflexivity|].
  destruct (node_at flatTree (to_int32 (TraverserImpl.i top))) as [node|];
    [|reflexivity].
  rewrite Hbest. change (t (@no_hit Payload)) with infinity.
  rewrite fgt_infinity. reflexivity.
Qed.

(** X3.  In occlusion mode the running best is never assigned, so the test
    [near > intersection.t] never discards an entry: on every node array
    and for every number of iterations, occlusion-mode [traverse] does
    exactly what the loop without the prune test does. *)
Theorem occlusion_never_prunes (fuel : nat) :
  traverse_fuel intersector bbox_intersect flatTree build_prims ray true
                fuel
  = traverse_unpruned_fuel intersector bbox_intersect flatTree build_prims
                           ray true fuel.
Proof.
  unfold traverse_fuel, traverse_unpruned_fuel, step, step_unpruned.
  assert (H : forall st, intersection st = no_hit ->
                         run (STEP true true) fuel st
                         = run (STEP true false) fuel st).
  { induction fuel as [|fuel' IH]; intros st Hbest; cbn [run].
    - reflexivity.
    - pose proof (step_best (fun b => b = no_hit) (fun _ => True)
                            true false (fun _ _ => I)
                            scan_leaf_occlusion_keeps st Hbest) as Hkeep.
      rewrite (step_unpruned_at_no_hit true st Hbest).
      destruct (STEP true false st) as [st'|r|f];
        [apply IH; exact Hkeep|reflexivity|reflexivity]. }
  apply H. reflexivity.
Qed.

(** *** The running best *)

Hypothesis numbers :
  forall obj, In obj build_prims -> is_nan (t (intersector obj ray)) = false.

Lemma scan_leaf_recedes_not (occlusion : bool) (bound : Float)
      (node : Node BBox) (count : nat) :
  forall (o : Z) best,
    fle (t best) bound = true ->
    match SCAN_LEAF occlusion node count o best with
    | LeafDone b => fle (t b) bound = true
    | LeafHit current => True
    | LeafFault => True
    end.
Proof.
  induction count as [|count IH]; intros o best Hbest; cbn [scan_leaf].
  - exact Hbest.
  - unfold prim_at.
    destruct (to_uint32 (start node + o) <? 0); [exact I|].
    destruct (nth_error build_prims (Z.to_nat (to_uint32 (start node + o))))
      as [obj|] eqn:Hobj; [|exact I].
    apply nth_error_In in Hobj. pose proof (numbers obj Hobj) as Hn.
    destruct (valid (intersector obj ray)).
    + destruct occlusion; [exact I|]. apply IH.
      destruct (closest_cases best (intersector obj ray)) as [_ [H1 _]].
      * apply (fle_not_nan _ _ Hbest).
      * exact Hn.
      * eapply fle_trans; eassumption.
    + apply IH. exact Hbest.
Qed.

Lemma reachable_best_number (occlusion pruning : bool) st :
  reachable (STEP occlusion pruning) st ->
  is_nan (t (intersection st)) = false.
Proof.
  induction 1 as [|st st' Hreach IH Hstep].
  - reflexivity.
  - pose proof (step_best
                  (fun b => fle (t b) infinity = true) (fun _ => True)
                  occlusion pruning (fun _ _ => I)
                  (scan_leaf_recedes_not occlusion infinity) st
                  (fle_infinity _ IH)) as Hkeep.
    rewrite Hstep in Hkeep. apply (fle_not_nan _ _ Hkeep).
Qed.

(** X7.  When the intersector reports no not-a-number distance, the
    running best never recedes: along a run of [traverse], each iteration
    leaves [intersection.t] where it was or makes it smaller.  This is
    what the prune test compares against. *)
Theorem best_never_recedes (occlusion : bool) st st' :
  reachable (step intersector bbox_intersect flatTree build_prims ray
                  occlusion) st ->
  step intersector bbox_intersect flatTree build_prims ray occlusion st
  = Continue st' ->
  fle (t (intersection st')) (t (intersection st)) = true.
Proof.
  unfold step. intros Hreach Hstep.
  pose proof (reachable_best_number occlusion true st Hreach) as Hn.
  pose proof (step_best
                (fun b => fle (t b) (t (intersection st)) = true)
                (fun _ => True)
                occlusion true (fun _ _ => I)
                (scan_leaf_recedes_not occlusion (t (intersection st))) st
                (fle_refl _ Hn)) as Hkeep.
  rewrite Hstep in Hkeep. exact Hkeep.
Qed.

End Iteration.

(** ** The working set and the unchecked reads *)

Section Reads.

Context {Primitive Ray BBox Payload : Type}.
Variable intersector : Primitive -> Ray -> Intersection Payload.
Variable bbox_intersect : BBox -> Ray -> option (Float * Float).
Variable flatTree : list (Node BBox).
Variable build_prims : list Primitive.
Variable ray : Ray.

Local Abbreviation STEP :=
  (step intersector bbox_intersect flatTree build_prims ray).
Local Abbreviation TRAVERSE :=
  (traverse_fuel intersector bbox_intersect flatTree build_prims ray).

(** X8.  An iteration that goes on pops the top entry, leaves every entry
    below it as it is, and pushes at most two entries in its place: the
    stack pointer moves by at most one in either direction. *)
Theorem working_set_step (occlusion : bool) (st st' : State Payload) :
  STEP occlusion st = Continue st' ->
  (exists new,
      todo st' = new ++ tl (todo st) /\ (length new <= 2)%nat)
  /\ stackptr st - 1 <= stackptr st' <= stackptr st + 1.
Proof.
  intros Hstep.
  assert (H : exists new,
             todo st' = new ++ tl (todo st) /\ (length new <= 2)%nat
             /\ todo st <> []).
  { revert Hstep. unfold step, step_with.
    destruct (todo st) as [|top rest]; [discriminate|].
    destruct (node_at flatTree (to_int32 (TraverserImpl.i top))) as [node|];
      [|discriminate].
    destruct (true && fgt (TraverserImpl.mint top) (t (intersection st))).
    { intros E. inversion E. exists []. cbn. repeat split; [lia|discriminate]. }
    unfold visit_node. destruct (rightOffset node =? 0).
    { destruct (scan_leaf intersector build_prims ray occlusion node
                          (Z.to_nat (nPrims node)) 0 (intersection st));
        try discriminate.
      intros E. inversion E. exists []. cbn.
      repeat split; [lia|discriminate]. }
    cbv zeta.
    destruct (node_at flatTree (to_int32 (TraverserImpl.i top) + 1));
      [|discriminate].
    destruct (node_at flatTree
                      (to_uint32 (to_int32 (TraverserImpl.i top)
                                  + rightOffset node))); [|discriminate].
    destruct (bbox_intersect (bbox n) ray) as [[bb0 bb1]|];
      destruct (bbox_intersect (bbox n0) ray) as [[bb2 bb3]|];
      [destruct (flt bb2 bb0)| | |];
      unfold push2, push1, push;
      repeat match goal with
             | |- context [if ?c then _ else _] => destruct c
             end;
      try discriminate;
      intros E; inversion E; cbn [todo tl];
      match goal with
      | |- exists new, ?a :: ?b :: ?r = new ++ ?r /\ _ =>
          exists [a; b]
      | |- exists new, ?a :: ?r = new ++ ?r /\ _ => exists [a]
      | |- exists new, ?r = new ++ ?r /\ _ => exists []
      end;
      cbn; repeat split; try lia; discriminate. }
  destruct H as [new [E [Hlen Hne]]]. split.
  - exists new. split; assumption.
  - unfold stackptr. rewrite E, length_app.
    destruct (todo st) as [|top rest]; [contradiction|]. cbn [tl length].
    lia.
Qed.

Lemma scan_leaf_past (node : Node BBox) (count : nat) :
  forall (o : Z) (best : Intersection Payload),
    0 <= start node + o ->
    (0 < count)%nat ->
    start node + o + Z.of_nat count <= 2 ^ 32 ->
    Z.of_nat (length build_prims) < start node + o + Z.of_nat count ->
    scan_leaf intersector build_prims ray false node count o best
    = LeafFault.
Proof.
  induction count as [|count IH]; intros o best Hlo Hpos Hhi Hpast.
  - lia.
  - cbn [scan_leaf]. rewrite to_uint32_small by lia.
    unfold prim_at.
    destruct (Z.ltb_spec (start node + o) 0) as [Hneg|_]; [lia|].
    destruct (nth_error build_prims (Z.to_nat (start node + o)))
      as [obj|] eqn:Hobj; [|reflexivity].
    assert (Z.to_nat (start node + o) < length build_prims)%nat
      by (apply nth_error_Some; congruence).
    destruct (valid (intersector obj ray)); apply IH; lia.
Qed.

(** X9.  The range of a leaf is not checked: when the root is a leaf
    whose range runs past the end of the primitive array, nearest-mode
    [traverse] reads [build_prims] out of range, however many iterations
    it is given. *)
Theorem leaf_range_past_array_faults (root : Node BBox) (fuel : nat) :
  node_at flatTree 0 = Some root ->
  rightOffset root = 0 ->
  0 <= start root ->
  0 < nPrims root ->
  start root + nPrims root <= 2 ^ 32 ->
  Z.of_nat (length build_prims) < start root + nPrims root ->
  TRAVERSE false (S fuel) = Faulted PrimOutOfRange.
Proof.
  intros Hroot Hleaf Hs Hn Hhi Hpast.
  unfold traverse_fuel. cbn [run]. unfold step, step_with, initial.
  cbn [todo intersection].
  change (to_int32 (TraverserImpl.i (mkTraversal 0 root_mint))) with 0.
  rewrite Hroot.
  change (TraverserImpl.mint (mkTraversal 0 root_mint)) with root_mint.
  change (t (@no_hit Payload)) with infinity. rewrite fgt_infinity.
  cbn [andb]. unfold visit_node. rewrite Hleaf. cbn [Z.eqb].
  rewrite scan_leaf_past; [reflexivity| | | |]; try lia.
Qed.

End Reads.

(** The node array is not checked for being empty: on an empty array the
    first iteration reads [flatTree[0]] out of range, in both modes. *)
Remark empty_node_array_faults
        (Primitive Ray BBox Payload : Type)
        (intersector : Primitive -> Ray -> Intersection Payload)
        (bbox_intersect : BBox -> Ray -> option (Float * Float))
        (build_prims : list Primitive) (ray : Ray) (occlusion : bool)
        (fuel : nat) :
  traverse_fuel intersector bbox_intersect [] build_prims ray occlusion
                (S fuel)
  = Faulted NodeOutOfRange.
Proof. reflexivity. Qed.

(** ** Cost and safety on a well-formed hierarchy *)

Lemma valid_of_fle (a c : Float) :
  fle a c = true -> fne c infinity = true -> fne a infinity = true.
Proof. float_cases. Qed.

Section Cost.

Context {Primitive Ray BBox Payload : Type}.
Variable intersector : Primitive -> Ray -> Intersection Payload.
Variable bbox_intersect : BBox -> Ray -> option (Float * Float).
Variable build_prims : list Primitive.
Variable tree : Tree BBox.
Variable ray : Ray.

Local Abbreviation STEP :=
  (step_with intersector bbox_intersect (flatten tree) build_prims ray).
Local Abbreviation VISIT :=
  (visit intersector bbox_intersect build_prims ray).
Local Abbreviation HITS := (@hits _ _ BBox _ intersector build_prims ray).

(** The stack discipline with its cost: the entry of a subtree and its
    descendants are consumed in at most as many iterations as the subtree
    has nodes. *)
Lemma run_visit_bound (occlusion pruning : bool) :
  well_formed build_prims tree = true ->
  forall (sub : Tree BBox) (k : nat) (near : Float)
         (rest : list Traversal) (best : Intersection Payload),
    located tree k sub ->
    (length rest + depth sub <= 64)%nat ->
    exists n : nat,
      (1 <= n <= size sub)%nat
      /\ forall fuel : nat,
        run (STEP occlusion pruning) (n + fuel)
            (mkState (mkTraversal (Z.of_nat k) near :: rest) best) =
        match VISIT pruning occlusion sub near best with
        | Go b => run (STEP occlusion pruning) fuel (mkState rest b)
        | Stop h => Returned h
        end.
Proof.
  intros Hwf.
  destruct (well_formed_parts build_prims tree Hwf)
    as [Hsize [_ [Hprims Hranges]]].
  induction sub as [b s n|b s n l IHl r IHr];
    intros k near rest best Hloc Hlen.
  - exists 1%nat. split; [simpl; lia|]. intros fuel.
    cbn [Nat.add run visit].
    rewrite (step_top intersector bbox_intersect build_prims tree ray
                      occlusion Hsize pruning k _ near rest best Hloc).
    destruct (pruning && fgt near (t best)); [reflexivity|].
    rewrite visit_node_leaf;
      [|exact Hprims|eapply ranges_ok_located; [exact Hloc|exact Hranges]].
    destruct (scan_list intersector ray occlusion (slice build_prims s n)
                        best); reflexivity.
  - pose proof (located_left _ _ _ _ _ _ _ Hloc) as Hl.
    pose proof (located_right _ _ _ _ _ _ _ Hloc) as Hr.
    pose proof (depth_pos l) as Dl. pose proof (depth_pos r) as Dr.
    pose proof (size_pos l) as Sl. pose proof (size_pos r) as Sr.
    cbn [depth] in Hlen. cbn [size].
    assert (Hstep : forall fuel,
               run (STEP occlusion pruning) (S fuel)
                   (mkState (mkTraversal (Z.of_nat k) near :: rest) best) =
               if pruning && fgt near (t best)
               then run (STEP occlusion pruning) fuel (mkState rest best)
               else run (STEP occlusion pruning) fuel
                        (mkState (pushed bbox_intersect ray k l r ++ rest)
                                 best)).
    { intros fuel. cbn [run].
      rewrite (step_top intersector bbox_intersect build_prims tree ray
                        occlusion Hsize pruning k _ near rest best Hloc).
      destruct (pruning && fgt near (t best)); [reflexivity|].
      rewrite (visit_node_inner intersector bbox_intersect build_prims tree
                                ray occlusion Hsize k b s n l r rest best
                                Hloc) by lia.
      reflexivity. }
    cbn [visit]. unfold pushed in Hstep.
    destruct (pruning && fgt near (t best)).
    { exists 1%nat. split; [lia|]. intros fuel. apply Hstep. }
    destruct (bbox_intersect (root_bbox l) ray) as [[n0 f0]|];
      destruct (bbox_intersect (root_bbox r) ray) as [[n1 f1]|].
    + destruct (flt n1 n0).
      * destruct (IHr _ n1 (mkTraversal (Z.of_nat (S k)) n0 :: rest) best Hr)
          as [nr [Br Hnr]]; [simpl length; lia|].
        destruct (VISIT pruning occlusion r n1 best) as [b1|h];
          cbn [and_then].
        -- destruct (IHl _ n0 rest b1 Hl) as [nl [Bl Hnl]]; [lia|].
           exists (S (nr + nl)). split; [lia|]. intros fuel.
           replace (S (nr + nl) + fuel)%nat with (S (nr + (nl + fuel)))
             by lia.
           rewrite Hstep. cbn [app]. rewrite Hnr. apply Hnl.
        -- exists (S nr). split; [lia|]. intros fuel. cbn [Nat.add].
           rewrite Hstep. cbn [app]. apply Hnr.
      * destruct (IHl _ n0
                      (mkTraversal (Z.of_nat (S (k + size l))) n1 :: rest)
                      best Hl)
          as [nl [Bl Hnl]]; [simpl length; lia|].
        destruct (VISIT pruning occlusion l n0 best) as [b1|h];
          cbn [and_then].
        -- destruct (IHr _ n1 rest b1 Hr) as [nr [Br Hnr]]; [lia|].
           exists (S (nl + nr)). split; [lia|]. intros fuel.
           replace (S (nl + nr) + fuel)%nat with (S (nl + (nr + fuel)))
             by lia.
           rewrite Hstep. cbn [app]. rewrite Hnl. apply Hnr.
        -- exists (S nl). split; [lia|]. intros fuel. cbn [Nat.add].
           rewrite Hstep. cbn [app]. apply Hnl.
    + destruct (IHl _ n0 rest best Hl) as [nl [Bl Hnl]]; [lia|].
      exists (S nl). split; [lia|]. intros fuel. cbn [Nat.add].
      rewrite Hstep. cbn [app]. apply Hnl.
    + destruct (IHr _ n1 rest best Hr) as [nr [Br Hnr]]; [lia|].
      exists (S nr). split; [lia|]. intros fuel. cbn [Nat.add].
      rewrite Hstep. cbn [app]. apply Hnr.
    + exists 1%nat. split; [lia|]. intros fuel. cbn [Nat.add].
      rewrite Hstep. reflexivity.
Qed.

(** X5.  On a hierarchy that meets the builder's contract every node is
    popped at most once: [traverse] returns within as many iterations of
    the loop body as the hierarchy has nodes (one more step finds the
    working set empty), in both modes. *)
Theorem iterations_bounded_by_size (occlusion : bool) :
  well_formed build_prims tree = true ->
  exists r,
    traverse_fuel intersector bbox_intersect (flatten tree) build_prims ray
                  occlusion (S (size tree)) = Returned r.
Proof.
  intros Hwf.
  destruct (well_formed_parts build_prims tree Hwf)
    as [_ [Hdepth _]].
  destruct (run_visit_bound occlusion true Hwf tree 0%nat root_mint []
                            no_hit (loc_here tree))
    as [n [Hn Hrun]]; [simpl; lia|].
  unfold traverse_fuel, step, initial. change 0 with (Z.of_nat 0).
  replace (S (size tree)) with (n + S (size tree - n))%nat by lia.
  rewrite Hrun.
  destruct (VISIT true occlusion tree root_mint no_hit) as [b|h];
    eexists; reflexivity.
Qed.

(** X4.  On a hierarchy that meets the builder's contract no run of
    [traverse] reads outside the node array or the primitive array or
    writes outside [todo], whatever the ray, the mode, the box test and the
    intersector: a run that has not ended yet is the only alternative to a
    returned intersection. *)
Theorem well_formed_never_faults (occlusion : bool) (fuel : nat) (f : Fault) :
  well_formed build_prims tree = true ->
  traverse_fuel intersector bbox_intersect (flatten tree) build_prims ray
                occlusion fuel <> Faulted f.
Proof.
  intros Hwf Hfault.
  destruct (run_returns_visit intersector bbox_intersect build_prims tree
                              ray occlusion true Hwf) as [fuel0 Hret].
  unfold traverse_fuel, step in Hfault.
  assert (E : run (STEP occlusion true) fuel initial
              = run (STEP occlusion true) fuel0 initial).
  { apply run_agree; congruence. }
  rewrite Hfault, Hret in E. discriminate.
Qed.

(** X6.  On a hierarchy that meets the builder's contract and whose boxes
    enclose their primitives, the two modes agree on whether there is a
    hit, and the hit that nearest mode returns is no farther than the one
    that occlusion mode returns. *)
Theorem nearest_no_farther_than_occlusion :
  well_formed build_prims tree = true ->
  encloses intersector bbox_intersect build_prims ray tree = true ->
  exists fuel_n fuel_o rn ro,
    traverse_fuel intersector bbox_intersect (flatten tree) build_prims ray
                  false fuel_n = Returned rn
    /\ traverse_fuel intersector bbox_intersect (flatten tree) build_prims
                     ray true fuel_o = Returned ro
    /\ valid rn = valid ro
    /\ fle (t rn) (t ro) = true.
Proof.
  intros Hwf Henc.
  destruct (run_returns_visit intersector bbox_intersect build_prims tree
                              ray false true Hwf) as [fn Hn].
  destruct (run_returns_visit intersector bbox_intersect build_prims tree
                              ray true true Hwf) as [fo Ho].
  destruct (visit_nearest intersector bbox_intersect build_prims ray
                          true tree root_mint no_hit Henc eq_refl)
    as [b [Hv Hmin]].
  { change (t (@no_hit Payload)) with infinity.
    rewrite fgt_infinity. discriminate. }
  rewrite Hv in Hn.
  pose proof (visit_occlusion intersector bbox_intersect build_prims ray
                              true tree root_mint Henc) as Hocc.
  exists fn, fo, b.
  destruct (VISIT true true tree root_mint no_hit) as [b'|h].
  - destruct Hocc as [E Hall]. subst b'. exists no_hit.
    split; [exact Hn|]. split; [exact Ho|].
    assert (Et : t b = infinity)
      by (apply (min_t_invalid (t b) (HITS tree)); assumption).
    split.
    + unfold valid. rewrite Et. reflexivity.
    + rewrite Et. reflexivity.
  - destruct Hocc as [Hin Hvh]. exists h.
    split; [exact Hn|]. split; [exact Ho|].
    destruct Hmin as [_ [_ Hlow]]. pose proof (Hlow h Hin Hvh) as Hle.
    split; [|exact Hle].
    rewrite Hvh. unfold valid in *. eapply valid_of_fle; eassumption.
Qed.

End Cost.

(** ** The further properties on the concrete scene *)

Lemma reported_scene :
  reported Scene.hit_point Scene.points 3 (mkIntersection (FFin 2) (Some 5)).
Proof.
  apply (result_is_reported
           Scene.hit_point Scene.hit_interval (flatten Scene.hierarchy)
           Scene.points 3 false 20).
  reflexivity.
Defined.

Lemma best_recedes_not_scene :
  fle (t (intersection
            (mkState [TraverserImpl.mkTraversal 2 (FFin 6)]
                     (mkIntersection (FFin 2) (Some 5)))))
      (t (intersection
            (mkState [TraverserImpl.mkTraversal 1 (FFin (-1));
                      TraverserImpl.mkTraversal 2 (FFin 6)]
                     (@no_hit Z))))
  = true.
Proof.
  assert (Hnum : forall obj, In obj Scene.points ->
                             is_nan (t (Scene.hit_point obj 3)) = false).
  { intros obj _. unfold Scene.hit_point.
    destruct (3 <=? obj); reflexivity. }
  apply (best_never_recedes
           Scene.hit_point Scene.hit_interval (flatten Scene.hierarchy)
           Scene.points 3 Hnum false).
  - eapply reach_step; [apply reach_initial|reflexivity].
  - reflexivity.
Defined.

Lemma working_set_scene :
  (exists new,
      [TraverserImpl.mkTraversal 1 (FFin (-1));
       TraverserImpl.mkTraversal 2 (FFin 6)]
      = new ++ tl (todo (initial (Payload := Z)))
      /\ (length new <= 2)%nat)
  /\ stackptr (initial (Payload := Z)) - 1 <= 1
     <= stackptr (initial (Payload := Z)) + 1.
Proof.
  apply (working_set_step
           Scene.hit_point Scene.hit_interval (flatten Scene.hierarchy)
           Scene.points 3 false initial
           (mkState [TraverserImpl.mkTraversal 1 (FFin (-1));
                     TraverserImpl.mkTraversal 2 (FFin 6)] no_hit)).
  reflexivity.
Defined.

Lemma leaf_range_scene :
  traverse_fuel Scene.hit_point Scene.hit_interval
                [mkNode (0, 9) 0 3 0] [1; 2] 0 false 1
  = Faulted PrimOutOfRange.
Proof.
  apply (leaf_range_past_array_faults
           Scene.hit_point Scene.hit_interval [mkNode (0, 9) 0 3 0] [1; 2] 0
           (mkNode (0, 9) 0 3 0) 0);
    try reflexivity; cbn; lia.
Defined.

Lemma iterations_scene :
  exists r,
    traverse_fuel Scene.hit_point Scene.hit_interval
                  (flatten Scene.hierarchy) Scene.points 3 false
                  (S (size Scene.hierarchy))
    = Returned r.
Proof.
  apply (iterations_bounded_by_size
           Scene.hit_point Scene.hit_interval Scene.points Scene.hierarchy 3
           false).
  reflexivity.
Defined.

Lemma never_faults_scene :
  well_formed Scene.points Scene.hierarchy = true
  /\ traverse_fuel Scene.hit_point Scene.hit_interval
                   (flatten Scene.hierarchy) Scene.points 3 false 2
     <> Faulted NodeOutOfRange.
Proof.
  split; [reflexivity|].
  apply (well_formed_never_faults
           Scene.hit_point Scene.hit_interval Scene.points Scene.hierarchy 3
           false 2 NodeOutOfRange).
  reflexivity.
Defined.

Lemma nearest_and_occlusion_scene :
  exists fuel_n fuel_o rn ro,
    traverse_fuel Scene.hit_point Scene.hit_interval
                  (flatten Scene.hierarchy) Scene.points 3 false fuel_n
    = Returned rn
    /\ traverse_fuel Scene.hit_point Scene.hit_interval
                     (flatten Scene.hierarchy) Scene.points 3 true fuel_o
       = Returned ro
    /\ valid rn = valid ro
    /\ fle (t rn) (t ro) = true.
Proof.
  apply (nearest_no_farther_than_occlusion
           Scene.hit_point Scene.hit_interval Scene.points Scene.hierarchy 3);
    reflexivity.
Defined.

(** ** Where the loop returns *)

Section Exit.

Context {Primitive Ray BBox Payload : Type}.
Variable intersector : Primitive -> Ray -> Intersection Payload.
Variable bbox_intersect : BBox -> Ray -> option (Float * Float).
Variable flatTree : list (Node BBox).
Variable build_prims : list Primitive.
Variable ray : Ray.

Lemma scan_leaf_hit (occlusion : bool) (node : Node BBox) (count : nat) :
  forall (o : Z) (best current : Intersection Payload),
    scan_leaf intersector build_prims ray occlusion node count o best
    = LeafHit current ->
    occlusion = true /\ valid current = true.
Proof.
  induction count as [|count IH]; intros o best current; cbn [scan_leaf].
  - discriminate.
  - destruct (prim_at build_prims (to_uint32 (start node + o))) as [obj|];
      [|discriminate].
    destruct (valid (intersector obj ray)) eqn:Hv.
    + destruct occlusion.
      * intros E. inversion E. subst current. split; [reflexivity|exact Hv].
      * apply IH.
    + apply IH.
Qed.

(** X10.  The loop has two exits only.  It returns the running best when
    the working set is empty, and in occlusion mode it returns a valid hit
    from inside a leaf with the rest of the working set still unvisited;
    nearest mode never returns before the working set is empty. *)
Theorem return_points (occlusion : bool) (st : State Payload)
        (r : Intersection Payload) :
  step intersector bbox_intersect flatTree build_prims ray occlusion st
  = Return r ->
  (todo st = [] /\ r = intersection st)
  \/ (occlusion = true /\ valid r = true /\ todo st <> []).
Proof.
  unfold step, step_with.
  destruct (todo st) as [|top rest].
  - intros E. inversion E. left. split; reflexivity.
  - destruct (node_at flatTree (to_int32 (TraverserImpl.i top))) as [node|];
      [|discriminate].
    destruct (true && fgt (TraverserImpl.mint top) (t (intersection st)));
      [discriminate|].
    unfold visit_node. destruct (rightOffset node =? 0).
    + destruct (scan_leaf intersector build_prims ray occlusion node
                          (Z.to_nat (nPrims node)) 0 (intersection st))
        as [b|current|] eqn:Hscan; try discriminate.
      intros E. inversion E. subst current.
      destruct (scan_leaf_hit _ _ _ _ _ _ Hscan) as [Ho Hv].
      right. repeat split; [exact Ho|exact Hv|discriminate].
    + cbv zeta.
      destruct (node_at flatTree (to_int32 (TraverserImpl.i top) + 1));
        [|discriminate].
      destruct (node_at flatTree
                        (to_uint32 (to_int32 (TraverserImpl.i top)
                                    + rightOffset node))); [|discriminate].
      destruct (bbox_intersect (bbox n) ray) as [[bb0 bb1]|];
        destruct (bbox_intersect (bbox n0) ray) as [[bb2 bb3]|];
        [destruct (flt bb2 bb0)| | |];
        unfold push2, push1, push;
        repeat match goal with
               | |- context [if ?c then _ else _] => destruct c
               end;
        discriminate.
Qed.

End Exit.

Lemma return_points_scene :
  (todo (mkState [TraverserImpl.mkTraversal 1 (FFin (-1));
                  TraverserImpl.mkTraversal 2 (FFin 6)] (@no_hit Z)) = []
   /\ mkIntersection (FFin 2) (Some 5)
      = intersection
          (mkState [TraverserImpl.mkTraversal 1 (FFin (-1));
                    TraverserImpl.mkTraversal 2 (FFin 6)] (@no_hit Z)))
  \/ (true = true
      /\ valid (mkIntersection (FFin 2) (Some 5)) = true
      /\ todo (mkState [TraverserImpl.mkTraversal 1 (FFin (-1));
                        TraverserImpl.mkTraversal 2 (FFin 6)] (@no_hit Z))
         <> []).
Proof.
  apply (return_points
           Scene.hit_point Scene.hit_interval (flatten Scene.hierarchy)
           Scene.points 3 true).
  reflexivity.
Defined.

(** A leaf root whose box [10, 20] does not hold its primitive at 40: the
    ray from 30 misses the box and still gets the hit. *)
Example leaf_root_outside_its_box :
  Scene.hit_interval (10, 20) 30 = None
  /\ traverse_fuel Scene.hit_point Scene.hit_interval
                   [mkNode (10, 20) 0 1 0] [40] 30 false 2
     = Returned (mkIntersection (FFin 10) (Some 40)).
Proof. split; reflexivity. Qed.
